(** * Field encryption, HMAC indexing, cache purging and retries
      of pkg/database/database.go

    A shallow embedding of the gorm callbacks of the verification server
    ([callbackKMSEncrypt], [callbackKMSDecrypt], [callbackHMAC],
    [callbackPurgeCache]), of the HMAC helpers ([initialHMAC],
    [allAllowedHMACs]) and of [withRetries], followed by the properties
    the specification states about them.

    The collaborators the Go code reaches through interfaces (the key
    manager, the cacher, the hash function handed to the HMAC callback,
    the retried function) are stateful objects: they are modelled by
    explicit state passing, each call taking the collaborator's state and
    returning the next one.  Library code the callbacks rely on (gorm's
    scope and fields, encoding/base64, crypto/hmac, crypto/sha512,
    sethvargo/go-retry) is modelled as far as the callbacks use it. *)

From Stdlib Require Import ZArith NArith List Ascii String Bool Lia.
From Stdlib Require Import Strings.Byte DecimalString.
From Stdlib Require HexString.
From stdpp Require Import base option gmap strings list sorting.

Import ListNotations.
Local Open Scope Z_scope.

(** ** Errors and byte strings *)

(** A Go [(T, error)] result. Errors are kept as their message text. *)
Inductive Result (A : Type) : Type :=
| Ok (a : A)
| Error (msg : string).
Arguments Ok {A} a.
Arguments Error {A} msg.

(** [[]byte(s)] and [string(b)]: Go strings are byte sequences. *)
Definition bytesOf (s : string) : list byte := String.list_byte_of_string s.
Definition stringOf (b : list byte) : string := String.string_of_list_byte b.

Definition byteZ (b : byte) : Z := Z.of_N (Byte.to_N b).

Definition zByte (z : Z) : byte :=
  match Byte.of_N (Z.to_N (z mod 256)) with
  | Some b => b
  | None => x00
  end.

(** ** encoding/base64 *)

Definition encodeStd : string :=
  "ABCDEFGHIJKLMNOPQRSTUVWXYZabcdefghijklmnopqrstuvwxyz0123456789+/".
Definition encodeURL : string :=
  "ABCDEFGHIJKLMNOPQRSTUVWXYZabcdefghijklmnopqrstuvwxyz0123456789-_".

(** The character standing for the 6-bit value [v] in [alphabet]. *)
Definition sextet (alphabet : string) (v : Z) : ascii :=
  match String.get (Z.to_nat (v mod 64)) alphabet with
  | Some c => c
  | None => "A"%char
  end.

(** [Encoding.EncodeToString] without padding ([NoPadding]): three bytes
    give four characters, a trailing single byte gives two and a trailing
    pair gives three. *)
Fixpoint encodeRaw (alphabet : string) (src : list byte) : string :=
  match src with
  | [] => EmptyString
  | [a] =>
      let v := Z.shiftl (byteZ a) 16 in
      String (sextet alphabet (Z.shiftr v 18))
        (String (sextet alphabet (Z.shiftr v 12)) EmptyString)
  | [a; b] =>
      let v := Z.lor (Z.shiftl (byteZ a) 16) (Z.shiftl (byteZ b) 8) in
      String (sextet alphabet (Z.shiftr v 18))
        (String (sextet alphabet (Z.shiftr v 12))
           (String (sextet alphabet (Z.shiftr v 6)) EmptyString))
  | a :: b :: c :: rest =>
      let v := Z.lor (Z.lor (Z.shiftl (byteZ a) 16) (Z.shiftl (byteZ b) 8))
                     (byteZ c) in
      String (sextet alphabet (Z.shiftr v 18))
        (String (sextet alphabet (Z.shiftr v 12))
           (String (sextet alphabet (Z.shiftr v 6))
              (String (sextet alphabet v) (encodeRaw alphabet rest))))
  end.

(** [base64.RawStdEncoding.EncodeToString] and
    [base64.RawURLEncoding.EncodeToString]. *)
Definition RawStdEncoding_EncodeToString : list byte -> string :=
  encodeRaw encodeStd.
Definition RawURLEncoding_EncodeToString : list byte -> string :=
  encodeRaw encodeURL.

(** Position of a character in an alphabet. *)
Fixpoint indexOf (c : ascii) (alphabet : string) : option Z :=
  match alphabet with
  | EmptyString => None
  | String d rest =>
      if Ascii.eqb c d then Some 0
      else match indexOf c rest with
           | Some i => Some (i + 1)
           | None => None
           end
  end.

(** The 6-bit values of a text, or [None] at a character outside the
    alphabet. *)
Fixpoint sextets (alphabet : string) (s : string) : option (list Z) :=
  match s with
  | EmptyString => Some []
  | String c rest =>
      match indexOf c alphabet, sextets alphabet rest with
      | Some v, Some vs => Some (v :: vs)
      | _, _ => None
      end
  end.

(** Regrouping of 6-bit values into bytes; a single left-over value
    cannot encode a byte. *)
Fixpoint unsextets (vs : list Z) : option (list byte) :=
  match vs with
  | [] => Some []
  | [_] => None
  | [a; b] =>
      let v := Z.lor (Z.shiftl a 18) (Z.shiftl b 12) in
      Some [zByte (Z.shiftr v 16)]
  | [a; b; c] =>
      let v := Z.lor (Z.lor (Z.shiftl a 18) (Z.shiftl b 12)) (Z.shiftl c 6) in
      Some [zByte (Z.shiftr v 16); zByte (Z.shiftr v 8)]
  | a :: b :: c :: d :: rest =>
      let v := Z.lor (Z.lor (Z.lor (Z.shiftl a 18) (Z.shiftl b 12))
                            (Z.shiftl c 6)) d in
      match unsextets rest with
      | Some bs =>
          Some (zByte (Z.shiftr v 16) :: zByte (Z.shiftr v 8) :: zByte v :: bs)
      | None => None
      end
  end.

(** The decoders of encoding/base64 ignore the new line characters,
    carriage return and line feed, wherever they stand in the text. *)
Definition isNewLine (c : ascii) : bool :=
  Ascii.eqb c (Ascii.ascii_of_nat 10) || Ascii.eqb c (Ascii.ascii_of_nat 13).

Fixpoint dropNewLines (s : string) : string :=
  match s with
  | EmptyString => EmptyString
  | String c rest =>
      if isNewLine c then dropNewLines rest else String c (dropNewLines rest)
  end.

(** Decoding of an unpadded text without new line characters. *)
Definition decodeUnpadded (s : string) : Result (list byte) :=
  match sextets encodeStd s with
  | Some vs =>
      match unsextets vs with
      | Some bs => Ok bs
      | None => Error "illegal base64 data"
      end
  | None => Error "illegal base64 data"
  end.

(** [base64.RawStdEncoding.DecodeString]. *)
Definition RawStdEncoding_DecodeString (s : string) : Result (list byte) :=
  decodeUnpadded (dropNewLines s).

(** Removal of the trailing padding of a padded text whose length is a
    multiple of four. *)
Fixpoint stripPadding (s : string) : option string :=
  match s with
  | String a (String b (String c (String d EmptyString))) =>
      if Ascii.eqb d "="%char then
        if Ascii.eqb c "="%char
        then Some (String a (String b EmptyString))
        else Some (String a (String b (String c EmptyString)))
      else Some s
  | String a (String b (String c (String d rest))) =>
      match stripPadding rest with
      | Some r => Some (String a (String b (String c (String d r))))
      | None => None
      end
  | EmptyString => Some EmptyString
  | _ => None
  end.

(** [base64.StdEncoding.DecodeString]: the padded form. *)
Definition StdEncoding_DecodeString (s : string) : Result (list byte) :=
  match stripPadding (dropNewLines s) with
  | Some r => decodeUnpadded r
  | None => Error "illegal base64 data"
  end.

(** [base64util.DecodeString] of the exposure-notifications-server
    library: the padded standard encoding first, the unpadded one as the
    fallback. *)
Definition base64util_DecodeString (s : string) : Result (list byte) :=
  match StdEncoding_DecodeString s with
  | Ok b => Ok b
  | Error _ => RawStdEncoding_DecodeString s
  end.

(** ** crypto/sha512 *)

Definition mask64 : Z := 0xffffffffffffffff.
Definition add64 (a b : Z) : Z := Z.land (a + b) mask64.
Definition rotr64 (n x : Z) : Z :=
  Z.lor (Z.shiftr x n) (Z.land (Z.shiftl x (64 - n)) mask64).
Definition not64 (x : Z) : Z := Z.lxor x mask64.

Definition Ch (x y z : Z) : Z := Z.lxor (Z.land x y) (Z.land (not64 x) z).
Definition Maj (x y z : Z) : Z :=
  Z.lxor (Z.lxor (Z.land x y) (Z.land x z)) (Z.land y z).
Definition bigSigma0 (x : Z) : Z :=
  Z.lxor (Z.lxor (rotr64 28 x) (rotr64 34 x)) (rotr64 39 x).
Definition bigSigma1 (x : Z) : Z :=
  Z.lxor (Z.lxor (rotr64 14 x) (rotr64 18 x)) (rotr64 41 x).
Definition smallSigma0 (x : Z) : Z :=
  Z.lxor (Z.lxor (rotr64 1 x) (rotr64 8 x)) (Z.shiftr x 7).
Definition smallSigma1 (x : Z) : Z :=
  Z.lxor (Z.lxor (rotr64 19 x) (rotr64 61 x)) (Z.shiftr x 6).

(** The round constants [_K] of sha512block.go. *)
Definition sha512_K : list Z :=
  [ 0x428a2f98d728ae22; 0x7137449123ef65cd; 0xb5c0fbcfec4d3b2f; 0xe9b5dba58189dbbc;
    0x3956c25bf348b538; 0x59f111f1b605d019; 0x923f82a4af194f9b; 0xab1c5ed5da6d8118;
    0xd807aa98a3030242; 0x12835b0145706fbe; 0x243185be4ee4b28c; 0x550c7dc3d5ffb4e2;
    0x72be5d74f27b896f; 0x80deb1fe3b1696b1; 0x9bdc06a725c71235; 0xc19bf174cf692694;
    0xe49b69c19ef14ad2; 0xefbe4786384f25e3; 0x0fc19dc68b8cd5b5; 0x240ca1cc77ac9c65;
    0x2de92c6f592b0275; 0x4a7484aa6ea6e483; 0x5cb0a9dcbd41fbd4; 0x76f988da831153b5;
    0x983e5152ee66dfab; 0xa831c66d2db43210; 0xb00327c898fb213f; 0xbf597fc7beef0ee4;
    0xc6e00bf33da88fc2; 0xd5a79147930aa725; 0x06ca6351e003826f; 0x142929670a0e6e70;
    0x27b70a8546d22ffc; 0x2e1b21385c26c926; 0x4d2c6dfc5ac42aed; 0x53380d139d95b3df;
    0x650a73548baf63de; 0x766a0abb3c77b2a8; 0x81c2c92e47edaee6; 0x92722c851482353b;
    0xa2bfe8a14cf10364; 0xa81a664bbc423001; 0xc24b8b70d0f89791; 0xc76c51a30654be30;
    0xd192e819d6ef5218; 0xd69906245565a910; 0xf40e35855771202a; 0x106aa07032bbd1b8;
    0x19a4c116b8d2d0c8; 0x1e376c085141ab53; 0x2748774cdf8eeb99; 0x34b0bcb5e19b48a8;
    0x391c0cb3c5c95a63; 0x4ed8aa4ae3418acb; 0x5b9cca4f7763e373; 0x682e6ff3d6b2b8a3;
    0x748f82ee5defb2fc; 0x78a5636f43172f60; 0x84c87814a1f0ab72; 0x8cc702081a6439ec;
    0x90befffa23631e28; 0xa4506cebde82bde9; 0xbef9a3f7b2c67915; 0xc67178f2e372532b;
    0xca273eceea26619c; 0xd186b8c721c0c207; 0xeada7dd6cde0eb1e; 0xf57d4f7fee6ed178;
    0x06f067aa72176fba; 0x0a637dc5a2c898a6; 0x113f9804bef90dae; 0x1b710b35131c471b;
    0x28db77f523047d84; 0x32caab7b40c72493; 0x3c9ebe0a15c9bebc; 0x431d67c49c100d4c;
    0x4cc5d4becb3e42b6; 0x597f299cfc657e2a; 0x5fcb6fab3ad6faec; 0x6c44198c4a475817 ].

(** The initial hash value [init0 .. init7]. *)
Definition sha512_init : list Z :=
  [ 0x6a09e667f3bcc908; 0xbb67ae8584caa73b; 0x3c6ef372fe94f82b; 0xa54ff53a5f1d36f1;
    0x510e527fade682d1; 0x9b05688c2b3e6c1f; 0x1f83d9abfb41bd6b; 0x5be0cd19137e2179 ].

(** Big-endian reading and writing of words. *)
Definition beWord (bs : list byte) : Z :=
  fold_left (fun acc b => Z.lor (Z.shiftl acc 8) (byteZ b)) bs 0.

Fixpoint beBytes (n : nat) (w : Z) : list byte :=
  match n with
  | O => []
  | S m => zByte (Z.shiftr w (8 * Z.of_nat m)) :: beBytes m w
  end.

(** Splitting of a byte string into consecutive groups of [size] bytes;
    [count] groups are taken. *)
Fixpoint chunks (count size : nat) (bs : list byte) : list (list byte) :=
  match count with
  | O => []
  | S c => firstn size bs :: chunks c size (skipn size bs)
  end.

(** The message schedule, newest word first: [n] more words are added to
    the sixteen words of the block. *)
Fixpoint extendSchedule (n : nat) (w : list Z) : list Z :=
  match n with
  | O => w
  | S m =>
      let v := add64 (add64 (add64 (smallSigma1 (nth 1 w 0)) (nth 6 w 0))
                            (smallSigma0 (nth 14 w 0)))
                     (nth 15 w 0) in
      extendSchedule m (v :: w)
  end.

Definition schedule (p : list byte) : list Z :=
  rev (extendSchedule 64 (rev (map beWord (chunks 16 8 p)))).

(** One round on the working variables [a .. h]. *)
Definition sha512_round (st : list Z) (kw : Z * Z) : list Z :=
  match st with
  | [a; b; c; d; e; f; g; h] =>
      let t1 := add64 (add64 (add64 (add64 h (bigSigma1 e)) (Ch e f g))
                             (fst kw)) (snd kw) in
      let t2 := add64 (bigSigma0 a) (Maj a b c) in
      [add64 t1 t2; a; b; c; add64 d t1; e; f; g]
  | _ => st
  end.

(** [blockGeneric] on one block of 128 bytes. *)
Definition sha512_block (h : list Z) (p : list byte) : list Z :=
  let st := fold_left sha512_round (combine sha512_K (schedule p)) h in
  map (fun xy => add64 (fst xy) (snd xy)) (combine h st).

(** The padding of [checkSum]: a 0x80 byte, zero bytes up to 112 modulo
    128, and the length in bits on sixteen bytes. *)
Definition sha512_pad (msg : list byte) : list byte :=
  let len := Z.of_nat (List.length msg) in
  let zeros := Z.to_nat ((111 - len) mod 128) in
  msg ++ [x80] ++ repeat x00 zeros ++ beBytes 16 (8 * len).

(** [sha512.Sum512]: the digest of a whole message, 64 bytes. *)
Definition sha512_Sum (msg : list byte) : list byte :=
  let padded := sha512_pad msg in
  let blocks := chunks (List.length padded / 128) 128 padded in
  concat (map (beBytes 8) (fold_left sha512_block blocks sha512_init)).

(** The part of [hash.Hash] that crypto/hmac uses, for a hash whose
    state is the text written so far. *)
Record Hash : Type := mkHash {
  hashSum : list byte -> list byte;
  hashBlockSize : nat;
}.

(** [sha512.New]. *)
Definition sha512_New : Hash :=
  {| hashSum := sha512_Sum; hashBlockSize := 128 |}.

(** ** crypto/hmac *)

(** The state of the value made by [hmac.New]: the two pads and the
    bytes written to the inner hash so far. *)
Record HMAC : Type := mkHMAC {
  hmacHash : Hash;
  hmacOpad : list byte;
  hmacIpad : list byte;
  hmacWritten : list byte;
}.

Definition xorPad (pad : Z) (key : list byte) : list byte :=
  map (fun b => zByte (Z.lxor (byteZ b) pad)) key.

(** [hmac.New]: a key longer than the block is hashed first, then the
    key is padded with zero bytes to the block size. *)
Definition hmac_New (h : Hash) (key : list byte) : HMAC :=
  let blocksize := hashBlockSize h in
  let key :=
    if (blocksize <? List.length key)%nat then hashSum h key else key in
  let key := key ++ repeat x00 (blocksize - List.length key) in
  {| hmacHash := h;
     hmacOpad := xorPad 0x5c key;
     hmacIpad := xorPad 0x36 key;
     hmacWritten := [] |}.

(** [Write] on the HMAC; like every [hash.Hash] it never returns an
    error. *)
Definition hmac_Write (sig : HMAC) (p : list byte) : HMAC * option string :=
  ({| hmacHash := hmacHash sig;
      hmacOpad := hmacOpad sig;
      hmacIpad := hmacIpad sig;
      hmacWritten := hmacWritten sig ++ p |}, None).

(** [Sum(in)]: the MAC appended to [in]. *)
Definition hmac_Sum (sig : HMAC) (into : list byte) : list byte :=
  let h := hmacHash sig in
  into ++ hashSum h (hmacOpad sig ++ hashSum h (hmacIpad sig ++ hmacWritten sig)).

(** ** The HMAC helpers of database.go *)

(** [initialHMAC] uses the currently active HMAC key to seed a new
    record. *)
Definition initialHMAC (keys : list (list byte)) (data : string)
  : Result string :=
  if (List.length keys <? 1)%nat then Error "expected at least 1 hmac key"
  else
    let sig := hmac_New sha512_New (nth 0 keys []) in
    match hmac_Write sig (bytesOf data) with
    | (_, Some err) => Error err
    | (sig, None) => Ok (RawURLEncoding_EncodeToString (hmac_Sum sig []))
    end.

(** The body of the loop of [allAllowedHMACs], from the signatures
    collected so far. *)
Definition allAllowedHMACs_step (data : string)
    (acc : Result (list string)) (key : list byte) : Result (list string) :=
  match acc with
  | Error err => Error err
  | Ok sigs =>
      let sig := hmac_New sha512_New key in
      match hmac_Write sig (bytesOf data) with
      | (_, Some err) => Error err
      | (sig, None) =>
          Ok (sigs ++ [RawURLEncoding_EncodeToString (hmac_Sum sig [])])
      end
  end.

(** [allAllowedHMACs] uses all passed in HMAC keys to return all valid
    results for searching for a previously saved record. *)
Definition allAllowedHMACs (keys : list (list byte)) (data : string)
  : Result (list string) :=
  fold_left (allAllowedHMACs_step data) keys (Ok []).

(** ** fmt *)

(** The double quote character, for the [%q] verb. *)
Definition dquote : string := String (Ascii.ascii_of_nat 34) EmptyString.

(** [%q] on a string without characters that need escaping (table and
    column names). *)
Definition quoted (s : string) : string := dquote +:+ s +:+ dquote.

(** [%d] on unsigned and signed integers. *)
Definition formatUint (n : N) : string :=
  NilEmpty.string_of_uint (N.to_uint n).
Definition formatInt (z : Z) : string :=
  NilZero.string_of_int (Z.to_int z).

(** ** gorm: field values, fields and scopes *)

(** The value [field.Field.Interface()] gives for a field of a record:
    [VNil] is the nil value of a field of interface type; a string
    pointer is nil or an address with the string it points to. *)
Inductive Value : Type :=
| VNil
| VString (s : string)
| VNilStringPtr
| VStringPtr (addr : N) (s : string)
| VUint (n : N)
| VInt (z : Z).

(** [fmt.Sprintf("%v", val)]; a pointer prints as its address. *)
Definition Sprintf_v (val : Value) : string :=
  match val with
  | VNil => "<nil>"
  | VString s => s
  | VNilStringPtr => "<nil>"
  | VStringPtr addr _ => HexString.of_N addr
  | VUint n => formatUint n
  | VInt z => formatInt z
  end.

(** A [*gorm.Scope]: the table of the record, the fields of the record
    under the names [FieldByName] finds them by, the name of the struct
    field ([field.Name]) for the fields that are found by another name,
    their database name, the errors added to the operation, the lines
    logged, and the next address [reflect.New] hands out. *)
Record Scope : Type := mkScope {
  scopeTable : string;
  scopeFields : gmap string Value;
  scopeNames : gmap string string;
  scopeErrors : list string;
  scopeLog : list string;
  scopeNextAddr : N;
}.

Definition TableName (scope : Scope) : string := scopeTable scope.

Definition HasError (scope : Scope) : bool :=
  match scopeErrors scope with
  | [] => false
  | _ :: _ => true
  end.

(** [scope.Err(err)] adds the error to the operation. *)
Definition Err (scope : Scope) (err : string) : Scope :=
  {| scopeTable := scopeTable scope;
     scopeFields := scopeFields scope;
     scopeNames := scopeNames scope;
     scopeErrors := scopeErrors scope ++ [err];
     scopeLog := scopeLog scope;
     scopeNextAddr := scopeNextAddr scope |}.

(** [scope.Log(msg)]. *)
Definition Log (scope : Scope) (msg : string) : Scope :=
  {| scopeTable := scopeTable scope;
     scopeFields := scopeFields scope;
     scopeNames := scopeNames scope;
     scopeErrors := scopeErrors scope;
     scopeLog := scopeLog scope ++ [msg];
     scopeNextAddr := scopeNextAddr scope |}.

(** A [*gorm.Field] of the scope: [None] is the nil pointer, [Some name]
    the field found under [name]. *)
Definition Field : Type := option string.

(** [scope.FieldByName(name)]. *)
Definition FieldByName (scope : Scope) (name : string) : Field * bool :=
  match scopeFields scope !! name with
  | Some _ => (Some name, true)
  | None => (None, false)
  end.

(** [field.Field.Interface()] for the field [name] of the scope. *)
Definition Interface (scope : Scope) (name : string) : Value :=
  match scopeFields scope !! name with
  | Some val => val
  | None => VNil
  end.

(** [field.Name]: the name of the struct field found under [name]. *)
Definition Field_Name (scope : Scope) (name : string) : string :=
  match scopeNames scope !! name with
  | Some structName => structName
  | None => name
  end.

(** [field.Set(value)] for a string [value], on the record the scope
    holds.  The string is stored into a field of string or interface
    type, and through a string pointer, which is allocated when nil;
    it cannot be converted to an integer field. *)
Definition Field_Set (name : string) (value : string) (scope : Scope)
  : Scope * option string :=
  let store (val : Value) (next : N) : Scope :=
    {| scopeTable := scopeTable scope;
       scopeFields := <[name := val]> (scopeFields scope);
       scopeNames := scopeNames scope;
       scopeErrors := scopeErrors scope;
       scopeLog := scopeLog scope;
       scopeNextAddr := next |} in
  match scopeFields scope !! name with
  | None => (scope, Some "field value not valid")
  | Some VNil | Some (VString _) =>
      (store (VString value) (scopeNextAddr scope), None)
  | Some VNilStringPtr =>
      (store (VStringPtr (scopeNextAddr scope) value)
             (scopeNextAddr scope + 1)%N, None)
  | Some (VStringPtr addr _) =>
      (store (VStringPtr addr value) (scopeNextAddr scope), None)
  | Some (VUint _) =>
      (scope, Some ("could not convert argument of field "
                    +:+ Field_Name scope name +:+ " from string to uint"))
  | Some (VInt _) =>
      (scope, Some ("could not convert argument of field "
                    +:+ Field_Name scope name +:+ " from string to int"))
  end.

(** [getFieldString]: the field, its value when the value is a string,
    and whether it is one.  Fields of a gorm scope come from exported
    struct fields, so [IsValid] and [CanInterface] hold for them. *)
Definition getFieldString (scope : Scope) (name : string)
  : Field * string * bool :=
  match FieldByName scope name with
  | (field, false) => (field, "", false)
  | (None, true) => (None, "", false)
  | (Some f, true) =>
      match Interface scope f with
      | VNil => (Some f, "", false)
      | VString typ => (Some f, typ, true)
      | _ => (Some f, "", false)
      end
  end.

(** ** Collaborators *)

(** [keys.KeyManager]: the key manager is a stateful service; each call
    takes its state and gives the next one. *)
Class KeyManager (K : Type) : Type := {
  Encrypt : K -> string -> list byte -> list byte -> K * Result (list byte);
  Decrypt : K -> string -> list byte -> list byte -> K * Result (list byte);
}.

(** [cache.Key] and the [Delete] method of [cache.Cacher]. *)
Record Key : Type := mkKey {
  Namespace : string;
  KeyName : string;
}.

Class Cacher (C : Type) : Type := {
  Delete : C -> Key -> C * option string;
}.

(** A collaborator together with the calls made to it so far, oldest
    first: the instrument the properties below observe calls with. *)
Record Recorded (S Call : Type) : Type := mkRecorded {
  inner : S;
  calls : list Call;
}.
Arguments mkRecorded {S Call} inner calls.
Arguments inner {S Call} r.
Arguments calls {S Call} r.

Definition recording {S Call : Type} (s : S) : Recorded S Call :=
  mkRecorded s [].

Inductive KMCall : Type :=
| EncryptCall (keyID : string) (plaintext aad : list byte)
| DecryptCall (keyID : string) (ciphertext aad : list byte).

#[export] Instance Recorded_KeyManager {K : Type} `{KeyManager K}
  : KeyManager (Recorded K KMCall) := {
  Encrypt r keyID plaintext aad :=
    let '(k, res) := Encrypt (inner r) keyID plaintext aad in
    (mkRecorded k (calls r ++ [EncryptCall keyID plaintext aad]), res);
  Decrypt r keyID ciphertext aad :=
    let '(k, res) := Decrypt (inner r) keyID ciphertext aad in
    (mkRecorded k (calls r ++ [DecryptCall keyID ciphertext aad]), res);
}.

#[export] Instance Recorded_Cacher {C : Type} `{Cacher C}
  : Cacher (Recorded C Key) := {
  Delete r key :=
    let '(c, res) := Delete (inner r) key in
    (mkRecorded c (calls r ++ [key]), res);
}.

(** The hash function handed to [callbackHMAC], with its state. *)
Definition HashFunc (S : Type) : Type := S -> string -> S * Result string.

Definition recordedHash {S : Type} (hashFunc : HashFunc S)
  : HashFunc (Recorded S string) :=
  fun r value =>
    let '(s, res) := hashFunc (inner r) value in
    (mkRecorded s (calls r ++ [value]), res).

(** ** Control flow of a callback *)

(** A callback body either goes on to its next statement or has
    returned. *)
Inductive Flow : Type :=
| Continue (scope : Scope)
| Return (scope : Scope).

Definition andThen (flow : Flow) (k : Scope -> Flow) : Flow :=
  match flow with
  | Continue scope => k scope
  | Return scope => Return scope
  end.

Definition finish (flow : Flow) : Scope :=
  match flow with
  | Continue scope => scope
  | Return scope => scope
  end.

(** [if err := field.Set(value); err != nil { _ = scope.Err(..); return }],
    the error wrapped by [wrap]. *)
Definition setOrReturn (name value : string) (wrap : string -> string)
    (scope : Scope) : Flow :=
  match Field_Set name value scope with
  | (scope, Some err) => Return (Err scope (wrap err))
  | (scope, None) => Continue scope
  end.

(** [if err := field.Set(value); err != nil { _ = scope.Err(..) }]: the
    error is added and the callback goes on. *)
Definition setOrContinue (name value : string) (wrap : string -> string)
    (scope : Scope) : Flow :=
  match Field_Set name value scope with
  | (scope, Some err) => Continue (Err scope (wrap err))
  | (scope, None) => Continue scope
  end.

Definition failedToSet (scope : Scope) (name : string) (err : string)
  : string :=
  "failed to set column " +:+ Field_Name scope name +:+ ": " +:+ err.

(** [if has { if err := field.Set(value); err != nil { .. } }] for a
    field found by [getFieldString]. *)
Definition whenField (has : bool) (field : Field)
    (set : string -> Scope -> Flow) (scope : Scope) : Flow :=
  match has, field with
  | true, Some name => set name scope
  | _, _ => Continue scope
  end.

(** ** The callbacks of database.go *)

(** [callbackKMSEncrypt] encrypts the given column in the table using
    the key manager and key id before saving in the database. *)
Definition callbackKMSEncrypt {K : Type} `{KeyManager K}
    (keyID table column : string) (keyManager : K) (scope : Scope)
  : K * Scope :=
  (* Do nothing if not the target table *)
  if negb (String.eqb (TableName scope) table) then (keyManager, scope)
  (* Do nothing if there are errors *)
  else if HasError scope then (keyManager, scope)
  else
    match getFieldString scope column with
    | (_, _, false) | (None, _, true) =>
        (keyManager,
         Log scope ("skipping encryption, " +:+ column +:+ " is not a string"))
    | (Some realField, plaintext, true) =>
        if String.eqb plaintext "" then
          (keyManager,
           Log scope ("skipping encryption, " +:+ column +:+ " is blank"))
        else
          let '(plaintextCacheField, plaintextCache, hasPlaintextCache) :=
            getFieldString scope (column +:+ "PlaintextCache") in
          let '(ciphertextCacheField, ciphertextCache, hasCiphertextCache) :=
            getFieldString scope (column +:+ "CiphertextCache") in
          let '(ptrField, _, _) := getFieldString scope (column +:+ "Ptr") in
          (* Optimization - if PlaintextCache and CiphertextCache columns
             exist and the plaintext is unchanged, do not re-encrypt. *)
          let reuse :=
            if hasPlaintextCache && hasCiphertextCache
               && String.eqb plaintext plaintextCache
            then setOrReturn realField ciphertextCache
                   (fun err => "failed to re-use encrypted ciphertext: " +:+ err)
                   scope
            else Continue scope in
          match reuse with
          | Return scope => (keyManager, scope)
          | Continue scope =>
              match Encrypt keyManager keyID (bytesOf plaintext) [] with
              | (keyManager, Error err) =>
                  (keyManager,
                   Err scope ("failed to encrypt " +:+ column +:+ ": " +:+ err))
              | (keyManager, Ok b) =>
                  let ciphertext := RawStdEncoding_EncodeToString b in
                  (keyManager,
                   finish
                     (andThen (setOrReturn realField ciphertext
                                 (failedToSet scope realField) scope) (fun scope =>
                      andThen (whenField true ptrField (fun name =>
                                 setOrContinue name ciphertext (failedToSet scope name))
                                 scope) (fun scope =>
                      andThen (whenField hasPlaintextCache plaintextCacheField
                                 (fun name =>
                                    setOrReturn name plaintext (failedToSet scope name))
                                 scope) (fun scope =>
                      whenField hasCiphertextCache ciphertextCacheField
                        (fun name =>
                           setOrReturn name ciphertext (failedToSet scope name))
                        scope)))))
              end
          end
    end.

(** [callbackKMSDecrypt] decrypts the given column in the table using
    the key manager and key id. *)
Definition callbackKMSDecrypt {K : Type} `{KeyManager K}
    (keyID table column : string) (keyManager : K) (scope : Scope)
  : K * Scope :=
  (* Do nothing if not the target table *)
  if negb (String.eqb (TableName scope) table) then (keyManager, scope)
  (* Do nothing if there are errors *)
  else if HasError scope then (keyManager, scope)
  else
    match getFieldString scope column with
    | (_, _, false) | (None, _, true) =>
        (keyManager,
         Log scope ("skipping decryption, " +:+ column +:+ " is not a string"))
    | (Some realField, ciphertext, true) =>
        if String.eqb ciphertext "" then
          (keyManager,
           Log scope ("skipping decryption, " +:+ column +:+ " is blank"))
        else
          let '(plaintextCacheField, plaintextCache, hasPlaintextCache) :=
            getFieldString scope (column +:+ "PlaintextCache") in
          let '(ciphertextCacheField, ciphertextCache, hasCiphertextCache) :=
            getFieldString scope (column +:+ "CiphertextCache") in
          let '(ptrField, _, _) := getFieldString scope (column +:+ "Ptr") in
          (* Optimization - if PlaintextCache and CiphertextCache columns
             exist and the ciphertext is unchanged, do not decrypt. *)
          let reuse :=
            if hasPlaintextCache && hasCiphertextCache
               && String.eqb ciphertext ciphertextCache
            then setOrReturn realField plaintextCache
                   (fun err => "failed to re-use plaintext: " +:+ err) scope
            else Continue scope in
          match reuse with
          | Return scope => (keyManager, scope)
          | Continue scope =>
              match base64util_DecodeString ciphertext with
              | Error _ =>
                  (keyManager,
                   Err scope ("cannot decrypt " +:+ column
                              +:+ ", invalid ciphertext"))
              | Ok ciphertextBytes =>
                  match Decrypt keyManager keyID ciphertextBytes [] with
                  | (keyManager, Error err) =>
                      (keyManager,
                       Err scope ("failed to decrypt " +:+ column +:+ ": "
                                  +:+ err))
                  | (keyManager, Ok plaintextBytes) =>
                      let plaintext := stringOf plaintextBytes in
                      (keyManager,
                       finish
                         (andThen (setOrReturn realField plaintext
                                     (failedToSet scope realField) scope) (fun scope =>
                          andThen (whenField true ptrField (fun name =>
                                     setOrReturn name plaintext (failedToSet scope name))
                                     scope) (fun scope =>
                          andThen (whenField hasPlaintextCache
                                     plaintextCacheField (fun name =>
                                       setOrReturn name plaintext
                                         (failedToSet scope name))
                                     scope) (fun scope =>
                          whenField hasCiphertextCache ciphertextCacheField
                            (fun name =>
                               setOrReturn name ciphertext (failedToSet scope name))
                            scope)))))
                  end
              end
          end
    end.

(** How a call ends: it returns, or panics (here on [field.Name] of a
    nil [*gorm.Field]). *)
Inductive Outcome (A : Type) : Type :=
| Returned (a : A)
| Panicked (reason : string).
Arguments Returned {A} a.
Arguments Panicked {A} reason.

Definition nilDereference : string :=
  "invalid memory address or nil pointer dereference".

(** [callbackHMAC] HMACs the value with the given key before saving. *)
Definition callbackHMAC {S : Type} (hashFunc : HashFunc S)
    (table column : string) (signer : S) (scope : Scope)
  : Outcome (S * Scope) :=
  (* Do nothing if not the target table *)
  if negb (String.eqb (TableName scope) table) then Returned (signer, scope)
  (* Do nothing if there are errors *)
  else if HasError scope then Returned (signer, scope)
  else
    match getFieldString scope column with
    | (None, _, _) => Panicked nilDereference
    | (Some field, _, false) =>
        Returned (signer,
                  Log scope ("skipping HMAC, " +:+ Field_Name scope field
                             +:+ " is not a string"))
    | (Some field, value, true) =>
        if String.eqb value "" then
          Returned (signer,
                    Log scope ("skipping HMAC, " +:+ Field_Name scope field
                               +:+ " is blank"))
        else
          match hashFunc signer value with
          | (signer, Error err) =>
              Returned (signer,
                        Err scope ("failed to generate HMAC for column "
                                   +:+ Field_Name scope field +:+ ": "
                                   +:+ err))
          | (signer, Ok sig) =>
              Returned (signer,
                        finish (setOrReturn field sig (failedToSet scope field) scope))
          end
    end.

(** The loop of [callbackPurgeCache] over the columns: it ends the
    callback ([Returns]) at a column the record does not have, with an
    error, and at a nil value, without one; otherwise it gives the texts
    of the values, [keys] being those collected so far.  As in
    [getFieldString], [CanInterface] holds for the fields of a scope, so
    the branch for a field that cannot interface is never taken. *)
Inductive Collected : Type :=
| Keys (keys : list string)
| Returns (scope : Scope).

Fixpoint collectKeys (table : string) (scope : Scope)
    (columns : list string) (keys : list string) : Collected :=
  match columns with
  | [] => Keys keys
  | column :: columns =>
      match FieldByName scope column with
      | (_, false) | (None, true) =>
          Returns (Err scope ("table " +:+ quoted table +:+ " has no column "
                              +:+ quoted column))
      | (Some field, true) =>
          match Interface scope field with
          | VNil => Returns scope
          | val => collectKeys table scope columns (keys ++ [Sprintf_v val])
          end
      end
  end.

(** [strings.Join(elems, sep)]. *)
Fixpoint Join (elems : list string) (sep : string) : string :=
  match elems with
  | [] => ""
  | [e] => e
  | e :: rest => e +:+ sep +:+ Join rest sep
  end.

(** [%v] of a [*cache.Key]. *)
Definition formatKey (key : Key) : string :=
  "&{" +:+ Namespace key +:+ " " +:+ KeyName key +:+ "}".

(** [callbackPurgeCache] purges the cache key for the given record. If
    multiple columns are provided, their values are combined with a
    pipe. *)
Definition callbackPurgeCache {C : Type} `{Cacher C}
    (namespace table : string) (columns : list string)
    (cacher : C) (scope : Scope) : C * Scope :=
  if negb (String.eqb (TableName scope) table) then (cacher, scope)
  else if HasError scope then (cacher, scope)
  else
    match collectKeys table scope columns [] with
    | Returns scope => (cacher, scope)
    | Keys keys =>
        let key := {| Namespace := namespace; KeyName := Join keys "|" |} in
        match Delete cacher key with
        | (cacher, Some err) =>
            (cacher, Log scope ("failed to delete cache key: " +:+ err))
        | (cacher, None) =>
            (cacher, Log scope ("cleared cache for " +:+ formatKey key))
        end
    end.

(** ** sethvargo/go-retry *)

(** [time.Duration], in nanoseconds. *)
Definition Duration : Type := Z.
Definition Second : Duration := 1000000000.

(** [retry.Backoff]: [Next] gives the time to wait before the next retry
    and whether to stop; a backoff is a stateful value. *)
Class Backoff (B : Type) : Type := {
  Next : B -> B * (Duration * bool);
}.

(** The backoff of [retry.NewConstant]: the same wait every time. *)
Record constantBackoff : Type := mkConstant {
  constantT : Duration;
}.

#[export] Instance constant_Backoff : Backoff constantBackoff := {
  Next b := (b, (constantT b, false));
}.

Definition NewConstant (t : Duration) : Result constantBackoff :=
  if t <=? 0 then Error "t must be greater than 0"
  else Ok {| constantT := t |}.

(** The backoff of [retry.WithMaxRetries]: it counts the retries it has
    allowed and stops once [max] of them were. *)
Record maxRetriesBackoff (B : Type) : Type := mkMaxRetries {
  retriesMax : N;
  retriesAttempt : N;
  retriesNext : B;
}.
Arguments mkMaxRetries {B} retriesMax retriesAttempt retriesNext.
Arguments retriesMax {B} m.
Arguments retriesAttempt {B} m.
Arguments retriesNext {B} m.

#[export] Instance maxRetries_Backoff {B : Type} `{Backoff B}
  : Backoff (maxRetriesBackoff B) := {
  Next b :=
    if (retriesMax b <=? retriesAttempt b)%N then (b, (0, true))
    else
      let attempt := (retriesAttempt b + 1)%N in
      match Next (retriesNext b) with
      | (next, (val, stop)) =>
          let b := mkMaxRetries (retriesMax b) attempt next in
          if stop then (b, (0, true)) else (b, (val, false))
      end;
}.

Definition WithMaxRetries {B : Type} (max : N) (next : B)
  : maxRetriesBackoff B :=
  mkMaxRetries max 0%N next.

(** The error of a [retry.RetryFunc]: marked by [retry.RetryableError]
    or not. *)
Inductive FuncError : Type :=
| RetryableError (err : string)
| PlainError (err : string).

(** A [retry.RetryFunc] over the state [S] of what it works on. *)
Definition RetryFunc (S : Type) : Type := S -> S * option FuncError.

(** The context as [retry.Do] uses it: the [select] between [ctx.Done()]
    and the timer of the given wait gives the state after the wait and,
    when the context ended first, [ctx.Err()]. *)
Definition Context (S : Type) : Type := S -> Duration -> S * option string.

(** [retry.Do]: the loop runs until the function succeeds, fails with an
    error that is not retryable, the backoff stops or the context ends.
    [fuel] bounds the iterations of the [for] loop; [None] is the loop
    still running when the fuel is used up. *)
Fixpoint Do {S B : Type} `{Backoff B} (fuel : nat) (ctx : Context S)
    (b : B) (f : RetryFunc S) (s : S) : option (S * option string) :=
  match fuel with
  | O => None
  | Datatypes.S fuel =>
      match f s with
      | (s, None) => Some (s, None)
      (* Not retryable *)
      | (s, Some (PlainError err)) => Some (s, Some err)
      | (s, Some (RetryableError err)) =>
          match Next b with
          | (b, (_, true)) => Some (s, Some err)
          | (b, (next, false)) =>
              match ctx s next with
              | (s, Some ctxErr) => Some (s, Some ctxErr)
              | (s, None) => Do fuel ctx b f s
              end
          end
      end
  end.

(** [withRetries] is a helper for creating a backoff with capped
    retries, useful for retrying database queries. *)
Definition withRetries {S : Type} (fuel : nat) (ctx : Context S)
    (f : RetryFunc S) (s : S) : option (S * option string) :=
  match NewConstant (1 * Second) with
  | Error err => Some (s, Some ("failed to configure backoff: " +:+ err))
  | Ok b =>
      let b := WithMaxRetries 30 b in
      Do fuel ctx b f s
  end.

(** The state a retried function works on, with the result of every
    call of the function and every wait so far, oldest first. *)
Record Probe (S : Type) : Type := mkProbe {
  probed : S;
  attempts : list (option FuncError);
  waits : list Duration;
}.
Arguments mkProbe {S} probed attempts waits.
Arguments probed {S} p.
Arguments attempts {S} p.
Arguments waits {S} p.

Definition probe {S : Type} (s : S) : Probe S := mkProbe s [] [].

Definition probeFunc {S : Type} (f : RetryFunc S) : RetryFunc (Probe S) :=
  fun p =>
    let '(s, res) := f (probed p) in
    (mkProbe s (attempts p ++ [res]) (waits p), res).

Definition probeContext {S : Type} (ctx : Context S) : Context (Probe S) :=
  fun p d =>
    let '(s, res) := ctx (probed p) d in
    (mkProbe s (attempts p) (waits p ++ [d]), res).

Definition isRetryable (res : option FuncError) : Prop :=
  match res with
  | Some (RetryableError _) => True
  | _ => False
  end.

(** ** Reference definitions the properties are stated with *)

(** HMAC as RFC 2104 defines it, with SHA-512 as the hash: the key,
    hashed when longer than the block of 128 bytes and padded with zero
    bytes to the block, is combined with the outer and inner pads around
    two applications of the hash. *)
Definition HMAC_SHA512 (key msg : list byte) : list byte :=
  let key0 := if (128 <? List.length key)%nat then sha512_Sum key else key in
  let key0 := key0 ++ repeat x00 (128 - List.length key0) in
  sha512_Sum (xorPad 0x5c key0 ++ sha512_Sum (xorPad 0x36 key0 ++ msg)).

(** The signature of [data] under one key. *)
Definition signWith (key : list byte) (data : string) : string :=
  RawURLEncoding_EncodeToString (HMAC_SHA512 key (bytesOf data)).

(** The characters of the URL-safe alphabet: letters, digits, [-] and
    [_]; neither the padding character [=] nor [+] and [/]. *)
Definition urlSafe (c : ascii) : bool :=
  let n := N_of_ascii c in
  ((65 <=? n) && (n <=? 90) || (97 <=? n) && (n <=? 122)
   || (48 <=? n) && (n <=? 57) || (n =? 45) || (n =? 95))%N.

Definition urlSafeText (s : string) : bool :=
  forallb urlSafe (list_ascii_of_string s).

(** The configured columns of a rule all hold a value that is not nil:
    the values, in the order of the columns. *)
Fixpoint columnValues (scope : Scope) (columns : list string)
  : option (list Value) :=
  match columns with
  | [] => Some []
  | column :: columns =>
      match scopeFields scope !! column, columnValues scope columns with
      | Some VNil, _ | None, _ | _, None => None
      | Some val, Some vals => Some (val :: vals)
      end
  end.

(** ** Collaborators used in the scenarios *)

(** A key manager whose ciphertext starts with a nonce that changes
    with every encryption, as envelope encryption does; its state is the
    next nonce. *)
Record nonceKM : Type := mkNonceKM {
  nextNonce : Z;
}.

#[export] Instance nonceKM_KeyManager : KeyManager nonceKM := {
  Encrypt k keyID plaintext aad :=
    (mkNonceKM (nextNonce k + 1), Ok (zByte (nextNonce k) :: plaintext));
  Decrypt k keyID ciphertext aad :=
    match ciphertext with
    | [] => (k, Error "ciphertext too short")
    | _ :: plaintext => (k, Ok plaintext)
    end;
}.

(** A key manager that cannot be reached. *)
Inductive brokenKM : Type := BrokenKM.

#[export] Instance brokenKM_KeyManager : KeyManager brokenKM := {
  Encrypt k keyID plaintext aad := (k, Error "key manager unavailable");
  Decrypt k keyID ciphertext aad := (k, Error "key manager unavailable");
}.

(** A cacher holding the keys of its entries, and one that fails. *)
Record memCacher : Type := mkMemCacher {
  entries : list Key;
}.

Definition sameKey (a b : Key) : bool :=
  String.eqb (Namespace a) (Namespace b) && String.eqb (KeyName a) (KeyName b).

#[export] Instance memCacher_Cacher : Cacher memCacher := {
  Delete c key :=
    (mkMemCacher (filter (fun k => negb (sameKey k key)) (entries c)), None);
}.

Inductive brokenCacher : Type := BrokenCacher.

#[export] Instance brokenCacher_Cacher : Cacher brokenCacher := {
  Delete c key := (c, Some "cache unavailable");
}.

(** A signer that counts its calls; it signs with the given keys. *)
Definition countingSigner (keys : list (list byte)) : HashFunc nat :=
  fun n value => (Datatypes.S n, initialHMAC keys value).

(** A scope without errors or log lines. *)
Definition scopeOf (table : string) (fields : list (string * Value)) : Scope :=
  {| scopeTable := table;
     scopeFields := list_to_map fields;
     scopeNames := ∅;
     scopeErrors := [];
     scopeLog := [];
     scopeNextAddr := 0xc000010000%N |}.

(** The record of sms_configs with its cache columns, as a fresh record
    carries it before its first write. *)
Definition smsConfig (token : string) : Scope :=
  scopeOf "sms_configs"
    [("TwilioAuthToken", VString token);
     ("TwilioAuthTokenPlaintextCache", VString "");
     ("TwilioAuthTokenCiphertextCache", VString "")].

(** The caller assigns [token] to the column again before the next
    write. *)
Definition assign (name : string) (val : Value) (scope : Scope) : Scope :=
  {| scopeTable := scopeTable scope;
     scopeFields := <[name := val]> (scopeFields scope);
     scopeNames := scopeNames scope;
     scopeErrors := scopeErrors scope;
     scopeLog := scopeLog scope;
     scopeNextAddr := scopeNextAddr scope |}.

(** A function that fails with a retryable error every time, the error
    naming the call; its state is the number of calls. *)
Definition alwaysFailing : RetryFunc N :=
  fun n => ((n + 1)%N,
            Some (RetryableError ("ping " +:+ formatUint (n + 1) +:+ " failed"))).

(** A context that never ends. *)
Definition background {S : Type} : Context S := fun s _ => (s, None).

(** The callbacks registered around [gorm:create] and [gorm:update] for
    an encrypted column: encrypt before the row is written, decrypt after;
    [stored] is the column as the row is written, between the two. *)
Definition saveEncrypted {K : Type} `{KeyManager K}
    (keyID table column : string) (keyManager : K) (scope : Scope)
  : K * Scope * option Value :=
  let '(keyManager, scope) :=
    callbackKMSEncrypt keyID table column keyManager scope in
  let stored := scopeFields scope !! column in
  let '(keyManager, scope) :=
    callbackKMSDecrypt keyID table column keyManager scope in
  (keyManager, scope, stored).

Definition isEncryptCall (call : KMCall) : bool :=
  match call with
  | EncryptCall _ _ _ => true
  | DecryptCall _ _ _ => false
  end.

Definition isDecryptCall (call : KMCall) : bool :=
  match call with
  | EncryptCall _ _ _ => false
  | DecryptCall _ _ _ => true
  end.

(** How often the key manager was asked to encrypt, and to decrypt. *)
Definition encryptCalls (cs : list KMCall) : nat :=
  List.length (List.filter isEncryptCall cs).
Definition decryptCalls (cs : list KMCall) : nat :=
  List.length (List.filter isDecryptCall cs).

(** A record of sms_configs whose cache columns hold a plaintext and the
    ciphertext that goes with it. *)
Definition smsConfigCached (token plaintext ciphertext : string) : Scope :=
  scopeOf "sms_configs"
    [("TwilioAuthToken", VString token);
     ("TwilioAuthTokenPlaintextCache", VString plaintext);
     ("TwilioAuthTokenCiphertextCache", VString ciphertext)].

(** ** pkg/rbac *)

(** [Permission] is a granular permission, an [int64]; the bitwise
    operations on it are those of two's complement, which [Z.land] and
    [Z.lor] are on [Z]. *)
Definition Permission : Type := Z.

(** The constants, [1 << iota] from the second line of the block on;
    the first line, [1 << 0], is left unused. *)
Definition AuditRead : Permission := Z.shiftl 1 1.
Definition APIKeyRead : Permission := Z.shiftl 1 2.
Definition APIKeyWrite : Permission := Z.shiftl 1 3.
Definition CodeIssue : Permission := Z.shiftl 1 4.
Definition CodeBulkIssue : Permission := Z.shiftl 1 5.
Definition CodeRead : Permission := Z.shiftl 1 6.
Definition CodeExpire : Permission := Z.shiftl 1 7.
Definition SettingsRead : Permission := Z.shiftl 1 8.
Definition SettingsWrite : Permission := Z.shiftl 1 9.
Definition StatsRead : Permission := Z.shiftl 1 10.
Definition MobileAppRead : Permission := Z.shiftl 1 11.
Definition MobileAppWrite : Permission := Z.shiftl 1 12.
Definition UserRead : Permission := Z.shiftl 1 13.
Definition UserWrite : Permission := Z.shiftl 1 14.

(** [LegacyRealmUser] and [LegacyRealmAdmin]. *)
Definition LegacyRealmUser : Permission :=
  Z.lor (Z.lor (Z.lor CodeIssue CodeBulkIssue) CodeRead) CodeExpire.

Definition LegacyRealmAdmin : Permission :=
  Z.lor (Z.lor (Z.lor (Z.lor (Z.lor (Z.lor (Z.lor (Z.lor (Z.lor (Z.lor
    (Z.lor (Z.lor (Z.lor AuditRead
    APIKeyRead) APIKeyWrite)
    CodeIssue) CodeBulkIssue) CodeRead) CodeExpire)
    SettingsRead) SettingsWrite)
    StatsRead)
    MobileAppRead) MobileAppWrite)
    UserRead) UserWrite.

(** The entries of [PermissionMap], as the literal lists them: the
    permission, its name and its description. *)
Definition PermissionMapEntries : list (Permission * (string * string)) :=
  [ (AuditRead, ("AuditRead", "read event and audit logs"));
    (APIKeyRead, ("APIKeyRead",
                  "view information about API keys, including statistics"));
    (APIKeyWrite, ("APIKeyWrite", "create, update, and delete API keys"));
    (CodeIssue, ("CodeIssue", "issue codes"));
    (CodeBulkIssue, ("CodeBulkIssue",
                     "issue codes in bulk, if bulk issue is enabled on the realm"));
    (CodeRead, ("CodeRead", "lookup code status"));
    (CodeExpire, ("CodeExpire", "expire codes"));
    (SettingsRead, ("SettingsRead", "read realm settings"));
    (SettingsWrite, ("SettingsWrite", "update realm settings"));
    (StatsRead, ("StatsRead", "view realm statistics"));
    (MobileAppRead, ("MobileAppRead", "view mobile app information"));
    (MobileAppWrite, ("MobileAppWrite",
                      "create, update, and delete mobile apps"));
    (UserRead, ("UserRead", "view user information"));
    (UserWrite, ("UserWrite", "create, update, and delete users")) ].

(** [PermissionMap]. *)
Definition PermissionMap : gmap Z (string * string) :=
  list_to_map PermissionMapEntries.

(** [init]: [NamePermissionMap] is filled by a loop over [PermissionMap].
    A Go map is ranged over in an unspecified order: [order] is the order
    in which the loop meets the entries. *)
Definition initNamePermissionMap (order : list (Permission * (string * string)))
  : gmap string Permission :=
  fold_left (fun names kv => <[fst (snd kv) := fst kv]> names) order ∅.

(** [Can] returns true if the given resource has permission to perform
    the provided permissions. *)
Definition Can (given target : Permission) : bool :=
  negb (Z.land given target =? 0).

(** The loop of [CompileAndAuthorize], from the permission compiled so
    far. *)
Fixpoint compileLoop (actorPermission : Permission)
    (toUpdate : list Permission) (permission : Permission)
  : Result Permission :=
  match toUpdate with
  | [] => Ok permission
  | update :: toUpdate =>
      if negb (Can actorPermission update)
      then Error "actor does not have all scopes which are being granted"
      else compileLoop actorPermission toUpdate (Z.lor permission update)
  end.

(** [CompileAndAuthorize] compiles a new permission bit from the given
    toUpdate permissions. *)
Definition CompileAndAuthorize (actorPermission : Permission)
    (toUpdate : list Permission) : Result Permission :=
  compileLoop actorPermission toUpdate 0.

(** [sort.Strings]: increasing order of the strings as byte sequences. *)
Definition sortStrings (l : list string) : list string :=
  merge_sort String.le l.

(** [PermissionNames] returns the list of permissions included in the
    given permission; [order] is the order in which the loop over
    [PermissionMap] meets the entries. *)
Definition PermissionNames (order : list (Permission * (string * string)))
    (p : Permission) : list string :=
  sortStrings
    (fold_left (fun names vk =>
                  if Can p (fst vk) then names ++ [fst (snd vk)] else names)
               order []).

(** [String] implements stringer. *)
Definition Permission_String (p : Permission) : string :=
  match PermissionMap !! p with
  | Some v => fst v
  | None => "Permission(" +:+ formatInt p +:+ ")"
  end.

(** [Description] returns the description. *)
Definition Permission_Description (p : Permission) : Result string :=
  match PermissionMap !! p with
  | Some v => Ok (snd v)
  | None => Error ("missing description for " +:+ Permission_String p)
  end.

(** A permission made of one bit. *)
Definition singleBit (p : Permission) : Prop :=
  exists k : Z, 0 <= k /\ p = Z.shiftl 1 k.

(** A text is in increasing order. *)
Definition increasing (l : list string) : Prop := Sorted String.le l.

(** ** Helpers of database.go *)

(** A [*string] and a [*uint] are nil ([None]) or point to a value. *)

(** [stringValue] gets the value of the string pointer, returning "" for
    nil. *)
Definition stringValue (s : option string) : string :=
  match s with
  | None => ""
  | Some v => v
  end.

(** [stringPtr] converts the string value to a pointer, returning nil
    for "". *)
Definition stringPtr (s : string) : option string :=
  if String.eqb s "" then None else Some s.

(** [uintValue] gets the value of the uint pointer, returning 0 for
    nil. *)
Definition uintValue (v : option N) : N :=
  match v with
  | None => 0%N
  | Some n => n
  end.

(** [uintPtr] converts the uint value to a pointer, returning nil for
    0. *)
Definition uintPtr (v : N) : option N :=
  if (v =? 0)%N then None else Some v.

(** The line feed character and the text made of it. *)
Definition lineFeed : ascii := Ascii.ascii_of_nat 10.
Definition newline : string := String lineFeed EmptyString.

(** [strings.Split(s, "\n")]: the parts of [s] between line feeds; the
    empty text has one part, the empty one. *)
Fixpoint splitLines (s : string) : list string :=
  match s with
  | EmptyString => [EmptyString]
  | String c rest =>
      if Ascii.eqb c lineFeed then EmptyString :: splitLines rest
      else match splitLines rest with
           | line :: lines => String c line :: lines
           | [] => [String c EmptyString]
           end
  end.

(** The loops of the diff functions: [fmt.Fprintf(&w, "-%s\n", line)]
    for every line, with the sign given. *)
Definition writeLines (sign : string) (lines : list string) (w : string)
  : string :=
  fold_left (fun w line => w +:+ sign +:+ line +:+ newline) lines w.

(** [stringDiff] builds a diff of the string values. *)
Definition stringDiff (then' now : string) : string :=
  let w := "" in
  let w := writeLines "-" (splitLines then') w in
  let w := writeLines "+" (splitLines now) w in
  w.

(** [strconv.FormatBool]. *)
Definition FormatBool (b : bool) : string :=
  if b then "true" else "false".

(** [boolDiff] and [uintDiff]. *)
Definition boolDiff (then' now : bool) : string :=
  stringDiff (FormatBool then') (FormatBool now).

Definition uintDiff (then' now : N) : string :=
  stringDiff (formatUint then') (formatUint now).

(** The keys of a Go map used as a set, in the order a [range] loop meets
    them; the callers below sort what they collect from the loop. *)
Definition rangeKeys (m : gset string) : list string := elements m.

(** The loops of [stringSliceDiff] that collect the keys of [from] that
    [other] does not have. *)
Definition keysNotIn (other from : gset string) : list string :=
  fold_left (fun acc k => if bool_decide (k ∈ other) then acc else acc ++ [k])
            (rangeKeys from) [].

(** [stringSliceDiff]: the removed and the added strings, each group in
    increasing order. *)
Definition stringSliceDiff (then' now : list string) : string :=
  let thenMap : gset string := list_to_set then' in
  let nowMap : gset string := list_to_set now in
  let added := sortStrings (keysNotIn thenMap nowMap) in
  let removed := sortStrings (keysNotIn nowMap thenMap) in
  let w := "" in
  let w := writeLines "-" removed w in
  let w := writeLines "+" added w in
  w.

(** A text without a line feed. *)
Fixpoint noLineFeed (s : string) : bool :=
  match s with
  | EmptyString => true
  | String c rest => negb (Ascii.eqb c lineFeed) && noLineFeed rest
  end.

(** ** The metric callback of database.go *)

(** [strconv.ParseUint(s, 10, 64)]: the loop over the bytes of [s], [n]
    being the number read so far; a byte that is not a decimal digit is a
    syntax error, a number above [maxUint64] a range error. *)
Definition maxUint64 : Z := 18446744073709551615.

Inductive NumError : Type :=
| ErrSyntax
| ErrRange.

Fixpoint parseUintLoop (s : string) (n : Z) : NumError + Z :=
  match s with
  | EmptyString => inr n
  | String c rest =>
      let code := Z.of_N (N_of_ascii c) in
      if (48 <=? code) && (code <=? 57) then
        let d := code - 48 in
        if maxUint64 / 10 + 1 <=? n then inl ErrRange
        else
          let n1 := n * 10 + d in
          if maxUint64 <? n1 then inl ErrRange else parseUintLoop rest n1
      else inl ErrSyntax
  end.

Definition ParseUint (s : string) : Result Z :=
  if String.eqb s "" then
    Error ("strconv.ParseUint: parsing " +:+ quoted s +:+ ": invalid syntax")
  else
    match parseUintLoop s 0 with
    | inr n => Ok n
    | inl ErrSyntax =>
        Error ("strconv.ParseUint: parsing " +:+ quoted s
               +:+ ": invalid syntax")
    | inl ErrRange =>
        Error ("strconv.ParseUint: parsing " +:+ quoted s
               +:+ ": value out of range")
    end.

(** The tags a measurement is recorded with: the realm put by
    [observability.WithRealmID], and whether [enobs.WithBuildInfo] added
    the build information. *)
Record MetricContext : Type := mkMetricContext {
  ctxRealmID : option Z;
  ctxBuildInfo : bool;
}.

(** What [stats.Record(ctx, m.M(1))] records: the measure, the value and
    the context. *)
Record Measurement : Type := mkMeasurement {
  measureName : string;
  measureValue : Z;
  measureContext : MetricContext;
}.

(** The type switch of [callbackIncrementMetric] on the value of
    [realm_id]: [uint64(t)] for the integer kinds, [ParseUint] for a
    string, an error for any other type. *)
Definition realmIDOf (realmIDRaw : Value) : Result Z :=
  match realmIDRaw with
  | VUint t => Ok (Z.of_N t mod 2 ^ 64)
  | VInt t => Ok (t mod 2 ^ 64)
  | VString t =>
      match ParseUint t with
      | Ok realmID => Ok realmID
      | Error err => Error ("failed to parse realm_id: " +:+ err)
      end
  | t => Error ("realm_id is of unknown type " +:+ Sprintf_v t)
  end.

(** [callbackIncrementMetric] increments the provided metric;
    [recorded] are the measurements recorded so far. *)
Definition callbackIncrementMetric (m table : string)
    (recorded : list Measurement) (scope : Scope)
  : list Measurement * Scope :=
  if negb (String.eqb (TableName scope) table) then (recorded, scope)
  else if HasError scope then (recorded, scope)
  else
    let ctx := {| ctxRealmID := None; ctxBuildInfo := false |} in
    (* Add realm so that metrics are groupable on a per-realm basis. *)
    let tagged : Result MetricContext :=
      match FieldByName scope "realm_id" with
      | (Some field, true) =>
          match Interface scope field with
          | VNil => Ok ctx
          | realmIDRaw =>
              match realmIDOf realmIDRaw with
              | Ok realmID =>
                  Ok {| ctxRealmID := Some realmID;
                        ctxBuildInfo := ctxBuildInfo ctx |}
              | Error err => Error err
              end
          end
      | _ => Ok ctx
      end in
    match tagged with
    | Error err => (recorded, Err scope err)
    | Ok ctx =>
        let ctx := {| ctxRealmID := ctxRealmID ctx; ctxBuildInfo := true |} in
        (recorded ++ [{| measureName := m; measureValue := 1;
                         measureContext := ctx |}],
         scope)
    end.

(** A record of verification_codes.  The callbacks are registered for
    its columns by their database names, [code] and [long_code], under
    which [FieldByName] finds the struct fields [Code] and [LongCode]. *)
Definition verificationCode (code longCode : string) : Scope :=
  {| scopeTable := "verification_codes";
     scopeFields := list_to_map [("code", VString code);
                                 ("long_code", VString longCode)];
     scopeNames := list_to_map [("code", "Code"); ("long_code", "LongCode")];
     scopeErrors := [];
     scopeLog := [];
     scopeNextAddr := 0xc000010000%N |}.

(** * Properties *)

(** ** Test vectors of the library models *)

Example sha512_abc :
  RawURLEncoding_EncodeToString (sha512_Sum (bytesOf "abc"))
  = "3a81oZNherrMQXNJriBBMRLm-k6JqX6iCp7u5ktV05ohkpkqJ0_BqDa6PCOj_uu9RU1EI2Q86A4qmslPpUyknw".
Proof. vm_compute. reflexivity. Qed.

Example hmac_sha512_fox :
  initialHMAC [bytesOf "key"] "The quick brown fox jumps over the lazy dog"
  = Ok "tCrwkFe6weLUFwjkipAuCbX_fxKrQopP6GZTxz3SSPuC-UilSfe3kaW0GRXuTR7Dk1NX5OIxclDQNyr6Lr7rOg".
Proof. vm_compute. reflexivity. Qed.

Example base64_round_trip :
  base64util_DecodeString (RawStdEncoding_EncodeToString (bytesOf "secret123"))
  = Ok (bytesOf "secret123")
  /\ base64util_DecodeString "c2VjcmV0MTIzNA==" = Ok (bytesOf "secret1234").
Proof. split; vm_compute; reflexivity. Qed.

(** New line characters in the text are skipped, between the groups,
    at the end and inside the padding. *)
Example base64_skips_new_lines :
  base64util_DecodeString ("c2Vj" +:+ newline +:+ "cmV0MTIz" +:+ newline)
  = Ok (bytesOf "secret123")
  /\ base64util_DecodeString
       (String (Ascii.ascii_of_nat 13) newline +:+ "c2VjcmV0MTIzNA")
     = Ok (bytesOf "secret1234")
  /\ base64util_DecodeString ("c2VjcmV0MTIzNA=" +:+ newline +:+ "=")
     = Ok (bytesOf "secret1234").
Proof. repeat split; vm_compute; reflexivity. Qed.

(** ** The unpadded base64 encoding *)

Lemma sextet_urlSafe (v : Z) : urlSafe (sextet encodeURL v) = true.
Proof.
  unfold sextet.
  assert (Hn : (Z.to_nat (v mod 64) < 64)%nat).
  { pose proof (Z.mod_pos_bound v 64 ltac:(lia)). lia. }
  remember (Z.to_nat (v mod 64)) as n eqn:En. clear En.
  do 64 (destruct n as [|n]; [reflexivity|]).
  lia.
Qed.

Lemma encodeRaw_urlSafe_bounded (n : nat) :
  forall src : list byte,
    (List.length src <= n)%nat ->
    urlSafeText (encodeRaw encodeURL src) = true.
Proof.
  induction n as [|n IH]; intros src Hlen.
  - destruct src; [reflexivity | simpl in Hlen; lia].
  - destruct src as [|a [|b [|c rest]]]; unfold urlSafeText in *;
      cbn [encodeRaw list_ascii_of_string forallb];
      rewrite ?sextet_urlSafe; cbn [andb]; try reflexivity.
    apply IH. cbn [List.length] in Hlen. lia.
Qed.

Lemma encodeRaw_urlSafe (src : list byte) :
  urlSafeText (RawURLEncoding_EncodeToString src) = true.
Proof. apply (encodeRaw_urlSafe_bounded (List.length src)). lia. Qed.

Lemma encodeRaw_length_bounded (alphabet : string) (n : nat) :
  forall src : list byte,
    (List.length src <= n)%nat ->
    Z.of_nat (String.length (encodeRaw alphabet src))
    = (4 * Z.of_nat (List.length src) + 2) / 3.
Proof.
  induction n as [|n IH]; intros src Hlen.
  - destruct src; [reflexivity | simpl in Hlen; lia].
  - destruct src as [|a [|b [|c rest]]]; try reflexivity.
    cbn [encodeRaw String.length List.length].
    rewrite !Nat2Z.inj_succ, IH by (simpl in Hlen; lia).
    replace (4 * Z.succ (Z.succ (Z.succ (Z.of_nat (List.length rest)))) + 2)
      with ((4 * Z.of_nat (List.length rest) + 2) + 4 * 3) by lia.
    rewrite Z.div_add by lia. lia.
Qed.

Lemma encodeRaw_length (alphabet : string) (src : list byte) :
  Z.of_nat (String.length (encodeRaw alphabet src))
  = (4 * Z.of_nat (List.length src) + 2) / 3.
Proof. apply (encodeRaw_length_bounded alphabet (List.length src)). lia. Qed.

(** ** The SHA-512 digest has 64 bytes *)

Lemma sha512_round_length (st : list Z) (kw : Z * Z) :
  List.length (sha512_round st kw) = List.length st.
Proof.
  unfold sha512_round.
  destruct st as [|a [|b [|c [|d [|e [|f [|g [|h [|i st]]]]]]]]]; reflexivity.
Qed.

Lemma sha512_rounds_length (kws : list (Z * Z)) :
  forall st, List.length (fold_left sha512_round kws st) = List.length st.
Proof.
  induction kws as [|kw kws IH]; intros st; simpl; [reflexivity|].
  rewrite IH. apply sha512_round_length.
Qed.

Lemma sha512_block_length (h : list Z) (p : list byte) :
  List.length (sha512_block h p) = List.length h.
Proof.
  unfold sha512_block.
  rewrite length_map, length_combine, sha512_rounds_length. lia.
Qed.

Lemma sha512_blocks_length (blocks : list (list byte)) :
  forall h, List.length (fold_left sha512_block blocks h) = List.length h.
Proof.
  induction blocks as [|p blocks IH]; intros h; simpl; [reflexivity|].
  rewrite IH. apply sha512_block_length.
Qed.

Lemma beBytes_length (n : nat) (w : Z) : List.length (beBytes n w) = n.
Proof. induction n as [|n IH]; simpl; [reflexivity | now rewrite IH]. Qed.

Lemma words_length (ws : list Z) :
  List.length (concat (map (beBytes 8) ws)) = (8 * List.length ws)%nat.
Proof.
  induction ws as [|w ws IH]; [reflexivity|].
  cbn [map concat]. rewrite length_app, beBytes_length, IH. simpl. lia.
Qed.

Lemma sha512_Sum_length (msg : list byte) :
  List.length (sha512_Sum msg) = 64%nat.
Proof.
  unfold sha512_Sum. rewrite words_length, sha512_blocks_length. reflexivity.
Qed.

Lemma HMAC_SHA512_length (key msg : list byte) :
  List.length (HMAC_SHA512 key msg) = 64%nat.
Proof. unfold HMAC_SHA512. apply sha512_Sum_length. Qed.

(** ** Signing *)

Lemma hmac_Sum_is_HMAC (key msg : list byte) :
  hmac_Sum (fst (hmac_Write (hmac_New sha512_New key) msg)) []
  = HMAC_SHA512 key msg.
Proof. reflexivity. Qed.

Lemma initialHMAC_cons (key : list byte) (rest : list (list byte))
    (data : string) :
  initialHMAC (key :: rest) data = Ok (signWith key data).
Proof. reflexivity. Qed.

Lemma signWith_length (key : list byte) (data : string) :
  String.length (signWith key data) = 86%nat.
Proof.
  apply Nat2Z.inj. unfold signWith, RawURLEncoding_EncodeToString.
  rewrite encodeRaw_length, HMAC_SHA512_length. reflexivity.
Qed.

Lemma allAllowedHMACs_fold (data : string) (keys : list (list byte)) :
  forall sigs,
    fold_left (allAllowedHMACs_step data) keys (Ok sigs)
    = Ok (sigs ++ map (fun key => signWith key data) keys).
Proof.
  induction keys as [|key keys IH]; intros sigs; simpl.
  - now rewrite app_nil_r.
  - change (fold_left (allAllowedHMACs_step data) keys
              (Ok (sigs ++ [signWith key data]))
            = Ok (sigs ++ signWith key data :: map (fun key => signWith key data) keys)).
    rewrite IH, <- app_assoc. reflexivity.
Qed.

Lemma allAllowedHMACs_map (keys : list (list byte)) (data : string) :
  allAllowedHMACs keys data = Ok (map (fun key => signWith key data) keys).
Proof. unfold allAllowedHMACs. now rewrite allAllowedHMACs_fold. Qed.

(** C4: for every plaintext and every key set with a first key, [initialHMAC]
    (Sign) gives the HMAC-SHA512 of the plaintext under that first key
    alone, whatever the other keys are, as an unpadded URL-safe base64 text
    (86 characters of the URL-safe alphabet, no padding character); on the
    empty key set it fails with an error. *)
Theorem initialHMAC_signs_with_primary_key (data : string) :
  (forall (key : list byte) (rest others : list (list byte)),
      initialHMAC (key :: rest) data
      = Ok (RawURLEncoding_EncodeToString (HMAC_SHA512 key (bytesOf data)))
      /\ initialHMAC (key :: rest) data = initialHMAC (key :: others) data
      /\ urlSafeText (signWith key data) = true
      /\ String.length (signWith key data) = 86%nat)
  /\ initialHMAC [] data = Error "expected at least 1 hmac key".
Proof.
  split; [|reflexivity].
  intros key rest others. rewrite !initialHMAC_cons.
  repeat split.
  - apply encodeRaw_urlSafe.
  - apply signWith_length.
Qed.

(** C5: for every plaintext and every key set with a first key,
    [allAllowedHMACs] (AllSignatures) gives one signature per key, in the
    order of the keys, each being what [initialHMAC] gives with that key
    alone; its first element is [initialHMAC] of the same plaintext with the
    same set, and the signature under every retired key is a member of the
    result. *)
Theorem allAllowedHMACs_one_signature_per_key
    (key : list byte) (rest : list (list byte)) (data : string) :
  exists (primary : string) (retired : list string),
    allAllowedHMACs (key :: rest) data = Ok (primary :: retired)
    /\ List.length (primary :: retired) = List.length (key :: rest)
    /\ Forall2 (fun k sig => initialHMAC [k] data = Ok sig)
               (key :: rest) (primary :: retired)
    /\ initialHMAC (key :: rest) data = Ok primary
    /\ Forall (fun k => exists sig,
                   initialHMAC [k] data = Ok sig
                   /\ In sig (primary :: retired)) rest.
Proof.
  exists (signWith key data), (map (fun k => signWith k data) rest).
  split; [apply allAllowedHMACs_map|].
  split; [simpl; now rewrite length_map|].
  split.
  { constructor; [reflexivity|].
    induction rest as [|k rest IH]; constructor; [reflexivity | exact IH]. }
  split; [reflexivity|].
  apply List.Forall_forall. intros k Hk.
  exists (signWith k data). split; [reflexivity|].
  right. apply in_map_iff. exists k. split; [reflexivity | exact Hk].
Qed.

(** ** Reading fields *)

Lemma getFieldString_string (scope : Scope) (name s : string) :
  scopeFields scope !! name = Some (VString s) ->
  getFieldString scope name = (Some name, s, true).
Proof.
  intros Hf. unfold getFieldString, FieldByName.
  rewrite Hf. unfold Interface. rewrite Hf. reflexivity.
Qed.

Lemma HasError_Log (scope : Scope) (msg : string) :
  HasError (Log scope msg) = HasError scope.
Proof. reflexivity. Qed.

(** ** Empty values are left alone *)

Lemma callbackKMSEncrypt_blank {K : Type} `{KeyManager K}
    (keyID table column : string) (keyManager : K) (scope : Scope) :
  scopeFields scope !! column = Some (VString "") ->
  exists scope',
    callbackKMSEncrypt keyID table column keyManager scope
    = (keyManager, scope')
    /\ scopeFields scope' = scopeFields scope
    /\ scopeErrors scope' = scopeErrors scope.
Proof.
  intros Hf. unfold callbackKMSEncrypt.
  destruct (negb (String.eqb (TableName scope) table)); [now exists scope|].
  destruct (HasError scope); [now exists scope|].
  rewrite (getFieldString_string _ _ _ Hf). cbn [String.eqb].
  eexists. split; [reflexivity|]. split; reflexivity.
Qed.

Lemma callbackHMAC_blank {S : Type} (hashFunc : HashFunc S)
    (table column : string) (signer : S) (scope : Scope) :
  scopeFields scope !! column = Some (VString "") ->
  exists scope',
    callbackHMAC hashFunc table column signer scope
    = Returned (signer, scope')
    /\ scopeFields scope' = scopeFields scope
    /\ scopeErrors scope' = scopeErrors scope.
Proof.
  intros Hf. unfold callbackHMAC.
  destruct (negb (String.eqb (TableName scope) table)); [now exists scope|].
  destruct (HasError scope); [now exists scope|].
  rewrite (getFieldString_string _ _ _ Hf). cbn [String.eqb].
  eexists. split; [reflexivity|]. split; reflexivity.
Qed.

(** C7: when the configured column of a record holds the empty string,
    encrypt-on-write and the HMAC callback are no-ops: the key manager and
    the signer come back in the state they were given, with no call
    recorded, and the record's columns and the errors of the operation are
    unchanged. *)
Theorem empty_value_is_never_encrypted_or_signed
    {K S : Type} `{KeyManager K} (hashFunc : HashFunc S)
    (keyID table column : string)
    (keyManager : Recorded K KMCall) (signer : Recorded S string)
    (scope : Scope) :
  scopeFields scope !! column = Some (VString "") ->
  (exists scope',
      callbackKMSEncrypt keyID table column keyManager scope
      = (keyManager, scope')
      /\ scopeFields scope' = scopeFields scope
      /\ scopeErrors scope' = scopeErrors scope)
  /\ (exists scope',
         callbackHMAC (recordedHash hashFunc) table column signer scope
         = Returned (signer, scope')
         /\ scopeFields scope' = scopeFields scope
         /\ scopeErrors scope' = scopeErrors scope).
Proof.
  intros Hf. split.
  - now apply callbackKMSEncrypt_blank.
  - now apply callbackHMAC_blank.
Qed.

Lemma empty_value_witness :
  let scope := smsConfig "" in
  scopeFields scope !! "TwilioAuthToken" = Some (VString "")
  /\ fst (callbackKMSEncrypt "k1" "sms_configs" "TwilioAuthToken"
            (recording (mkNonceKM 0)) scope)
     = recording (mkNonceKM 0).
Proof.
  split; [reflexivity|].
  destruct (empty_value_is_never_encrypted_or_signed
              (countingSigner [bytesOf "key"]) "k1" "sms_configs"
              "TwilioAuthToken" (recording (mkNonceKM 0)) (recording 0%nat)
              (smsConfig "") eq_refl) as [[scope' [Heq _]] _].
  now rewrite Heq.
Defined.

(** ** The cache columns do not save the call to the key manager *)

Lemma callbackKMSEncrypt_reuse_still_encrypts {K : Type} `{KeyManager K}
    (keyID table column : string) (keyManager : Recorded K KMCall)
    (scope : Scope) (plaintext ciphertext : string) :
  TableName scope = table ->
  HasError scope = false ->
  plaintext <> "" ->
  scopeFields scope !! column = Some (VString plaintext) ->
  scopeFields scope !! (column +:+ "PlaintextCache")
  = Some (VString plaintext) ->
  scopeFields scope !! (column +:+ "CiphertextCache")
  = Some (VString ciphertext) ->
  calls (fst (callbackKMSEncrypt keyID table column keyManager scope))
  = calls keyManager ++ [EncryptCall keyID (bytesOf plaintext) []].
Proof.
  intros Htable Herr Hne Hreal Hpc Hcc. unfold callbackKMSEncrypt.
  rewrite Htable, String.eqb_refl, Herr. cbn [negb].
  rewrite (getFieldString_string _ _ _ Hreal).
  destruct (String.eqb plaintext "") eqn:Heq;
    [apply String.eqb_eq in Heq; contradiction|].
  rewrite (getFieldString_string _ _ _ Hpc), (getFieldString_string _ _ _ Hcc).
  destruct (getFieldString scope (column +:+ "Ptr")) as [[ptrField ptr] hasPtr].
  rewrite String.eqb_refl. cbn [andb].
  unfold setOrReturn at 1. unfold Field_Set at 1. rewrite Hreal.
  cbn [Encrypt Recorded_KeyManager].
  destruct (Encrypt (inner keyManager) keyID (bytesOf plaintext) [])
    as [k [b|err]]; reflexivity.
Qed.

Lemma callbackKMSDecrypt_reuse_still_decrypts {K : Type} `{KeyManager K}
    (keyID table column : string) (keyManager : Recorded K KMCall)
    (scope : Scope) (plaintext ciphertext : string)
    (ciphertextBytes : list byte) :
  TableName scope = table ->
  HasError scope = false ->
  ciphertext <> "" ->
  base64util_DecodeString ciphertext = Ok ciphertextBytes ->
  scopeFields scope !! column = Some (VString ciphertext) ->
  scopeFields scope !! (column +:+ "PlaintextCache")
  = Some (VString plaintext) ->
  scopeFields scope !! (column +:+ "CiphertextCache")
  = Some (VString ciphertext) ->
  calls (fst (callbackKMSDecrypt keyID table column keyManager scope))
  = calls keyManager ++ [DecryptCall keyID ciphertextBytes []].
Proof.
  intros Htable Herr Hne Hdec Hreal Hpc Hcc. unfold callbackKMSDecrypt.
  rewrite Htable, String.eqb_refl, Herr. cbn [negb].
  rewrite (getFieldString_string _ _ _ Hreal).
  destruct (String.eqb ciphertext "") eqn:Heq;
    [apply String.eqb_eq in Heq; contradiction|].
  rewrite (getFieldString_string _ _ _ Hpc), (getFieldString_string _ _ _ Hcc).
  destruct (getFieldString scope (column +:+ "Ptr")) as [[ptrField ptr] hasPtr].
  rewrite String.eqb_refl. cbn [andb].
  unfold setOrReturn at 1. unfold Field_Set at 1. rewrite Hreal, Hdec.
  cbn [Decrypt Recorded_KeyManager].
  destruct (Decrypt (inner keyManager) keyID ciphertextBytes [])
    as [k [b|err]]; reflexivity.
Qed.

(** C1 (the code departs from the claim): two successive writes of the
    same plaintext "secret123" to a record whose cache columns are both
    populated after the first write.  The second write finds the plaintext
    equal to the cached plaintext, yet the key manager is asked to encrypt
    a second time, and the ciphertext stored by the second write is the new
    one, not the cached one. *)
Theorem second_write_of_same_plaintext_encrypts_again :
  let '(km1, scope1, stored1) :=
    saveEncrypted "k1" "sms_configs" "TwilioAuthToken"
      (recording (mkNonceKM 0)) (smsConfig "secret123") in
  let '(km2, scope2, stored2) :=
    saveEncrypted "k1" "sms_configs" "TwilioAuthToken" km1 scope1 in
  scopeFields scope1 !! "TwilioAuthToken" = Some (VString "secret123")
  /\ scopeFields scope1 !! "TwilioAuthTokenPlaintextCache"
     = Some (VString "secret123")
  /\ scopeFields scope1 !! "TwilioAuthTokenCiphertextCache" = stored1
  /\ encryptCalls (calls km1) = 1%nat
  /\ encryptCalls (calls km2) = 2%nat
  /\ stored1 = Some (VString "AHNlY3JldDEyMw")
  /\ stored2 = Some (VString "AXNlY3JldDEyMw").
Proof. vm_compute. repeat split. Qed.

(** C2 (the code departs from the claim): a record read with both cache
    columns populated and the stored ciphertext equal to the cached
    ciphertext.  The key manager is asked to decrypt all the same; when it
    cannot be reached the read fails, although the cached plaintext was at
    hand. *)
Theorem read_with_cached_ciphertext_decrypts_again :
  let scope := smsConfigCached "AHNlY3JldDEyMw" "secret123" "AHNlY3JldDEyMw" in
  let '(km1, scope1) :=
    callbackKMSDecrypt "k1" "sms_configs" "TwilioAuthToken"
      (recording (mkNonceKM 1)) scope in
  let '(km2, scope2) :=
    callbackKMSDecrypt "k1" "sms_configs" "TwilioAuthToken"
      (recording BrokenKM) scope in
  calls km1 = [DecryptCall "k1" (x00 :: bytesOf "secret123") []]
  /\ scopeFields scope1 !! "TwilioAuthToken" = Some (VString "secret123")
  /\ calls km2 = [DecryptCall "k1" (x00 :: bytesOf "secret123") []]
  /\ scopeErrors scope2
     = ["failed to decrypt TwilioAuthToken: key manager unavailable"].
Proof. vm_compute. repeat split. Qed.

(** C3 (the code departs from the claim): a write of the non-empty
    plaintext "secret123" to a record whose cache columns hold that
    plaintext, with a key manager whose encrypt call fails.  The operation
    fails, but the real column no longer holds what it held: it was
    overwritten with the cached ciphertext before the key manager was
    called. *)
Theorem failed_encrypt_leaves_cached_ciphertext_in_column :
  let scope := smsConfigCached "secret123" "secret123" "AHNlY3JldDEyMw" in
  let '(km, scope') :=
    callbackKMSEncrypt "k1" "sms_configs" "TwilioAuthToken"
      (recording BrokenKM) scope in
  calls km = [EncryptCall "k1" (bytesOf "secret123") []]
  /\ scopeErrors scope'
     = ["failed to encrypt TwilioAuthToken: key manager unavailable"]
  /\ scopeFields scope !! "TwilioAuthToken" = Some (VString "secret123")
  /\ scopeFields scope' !! "TwilioAuthToken" = Some (VString "AHNlY3JldDEyMw").
Proof. vm_compute. repeat split. Qed.

Lemma getFieldString_true (scope : Scope) (name : string)
    (field : Field) (s : string) :
  getFieldString scope name = (field, s, true) ->
  scopeFields scope !! name = Some (VString s).
Proof.
  unfold getFieldString, FieldByName.
  destruct (scopeFields scope !! name) as [val|] eqn:Hval;
    [|intros Heq; discriminate].
  unfold Interface. rewrite Hval.
  destruct val; intros Heq; inversion Heq; reflexivity.
Qed.

(** Off the path of the cache columns, a failing encrypt call leaves the
    record as it was and adds the error. *)
Lemma callbackKMSEncrypt_failure_without_reuse {K : Type} `{KeyManager K}
    (keyID table column : string) (keyManager keyManager' : K)
    (scope : Scope) (plaintext err : string) :
  TableName scope = table ->
  HasError scope = false ->
  plaintext <> "" ->
  scopeFields scope !! column = Some (VString plaintext) ->
  scopeFields scope !! (column +:+ "PlaintextCache")
  <> Some (VString plaintext) ->
  Encrypt keyManager keyID (bytesOf plaintext) [] = (keyManager', Error err) ->
  callbackKMSEncrypt keyID table column keyManager scope
  = (keyManager',
     Err scope ("failed to encrypt " +:+ column +:+ ": " +:+ err)).
Proof.
  intros Htable Herr Hne Hreal Hpc Henc. unfold callbackKMSEncrypt.
  rewrite Htable, String.eqb_refl, Herr. cbn [negb].
  rewrite (getFieldString_string _ _ _ Hreal).
  destruct (String.eqb plaintext "") eqn:Heq;
    [apply String.eqb_eq in Heq; contradiction|].
  destruct (getFieldString scope (column +:+ "PlaintextCache"))
    as [[pcField pc] hasPc] eqn:Hgpc.
  destruct (getFieldString scope (column +:+ "CiphertextCache"))
    as [[ccField cc] hasCc].
  destruct (getFieldString scope (column +:+ "Ptr")) as [[ptrField ptr] hasPtr].
  assert (Hmiss : hasPc && hasCc && String.eqb plaintext pc = false).
  { destruct hasPc; [|reflexivity].
    apply getFieldString_true in Hgpc.
    destruct (String.eqb plaintext pc) eqn:Hp; [|now rewrite andb_false_r].
    apply String.eqb_eq in Hp. subst pc. contradiction. }
  rewrite Hmiss, Henc. reflexivity.
Qed.

(** ** Purging the cache *)

Lemma collectKeys_cons (table : string) (scope : Scope)
    (column : string) (columns keys : list string) :
  collectKeys table scope (column :: columns) keys
  = match scopeFields scope !! column with
    | None =>
        Returns (Err scope ("table " +:+ quoted table +:+ " has no column "
                            +:+ quoted column))
    | Some VNil => Returns scope
    | Some val => collectKeys table scope columns (keys ++ [Sprintf_v val])
    end.
Proof.
  cbn [collectKeys]. unfold FieldByName.
  destruct (scopeFields scope !! column) as [val|] eqn:Hval; [|reflexivity].
  unfold Interface. rewrite Hval. destruct val; reflexivity.
Qed.

Lemma columnValues_cons (scope : Scope) (column : string)
    (columns : list string) (vals : list Value) :
  columnValues scope (column :: columns) = Some vals ->
  exists val rest,
    scopeFields scope !! column = Some val
    /\ val <> VNil
    /\ columnValues scope columns = Some rest
    /\ vals = val :: rest.
Proof.
  cbn [columnValues].
  destruct (scopeFields scope !! column) as [val|];
    [|destruct (columnValues scope columns); discriminate].
  destruct (columnValues scope columns) as [rest|];
    [|destruct val; discriminate].
  destruct val; intros Heq; try discriminate; inversion Heq;
    eexists _, rest; repeat split; discriminate.
Qed.

Lemma collectKeys_values (table : string) (scope : Scope)
    (columns : list string) :
  forall (vals : list Value) (keys : list string),
    columnValues scope columns = Some vals ->
    collectKeys table scope columns keys = Keys (keys ++ map Sprintf_v vals).
Proof.
  induction columns as [|column columns IH]; intros vals keys Hvals.
  - inversion Hvals. cbn. now rewrite app_nil_r.
  - apply columnValues_cons in Hvals.
    destruct Hvals as (val & rest & Hval & Hnil & Hrest & ->).
    rewrite collectKeys_cons, Hval.
    cbn [map].
    change (Sprintf_v val :: map Sprintf_v rest)
      with ([Sprintf_v val] ++ map Sprintf_v rest).
    rewrite app_assoc.
    destruct val; try contradiction; now apply IH.
Qed.

Lemma collectKeys_missing (table : string) (scope : Scope)
    (column : string) (after : list string) (before : list string) :
  forall (vals : list Value) (keys : list string),
    columnValues scope before = Some vals ->
    scopeFields scope !! column = None ->
    collectKeys table scope (before ++ column :: after) keys
    = Returns (Err scope ("table " +:+ quoted table +:+ " has no column "
                          +:+ quoted column)).
Proof.
  induction before as [|b before IH]; intros vals keys Hvals Hnone.
  - cbn [app]. now rewrite collectKeys_cons, Hnone.
  - apply columnValues_cons in Hvals.
    destruct Hvals as (val & rest & Hval & Hnil & Hrest & ->).
    cbn [app]. rewrite collectKeys_cons, Hval.
    destruct val; try contradiction; now apply (IH rest).
Qed.

Lemma collectKeys_nil (table : string) (scope : Scope)
    (column : string) (after : list string) (before : list string) :
  forall keys : list string,
    (forall b, In b before -> scopeFields scope !! b <> None) ->
    scopeFields scope !! column = Some VNil ->
    collectKeys table scope (before ++ column :: after) keys = Returns scope.
Proof.
  induction before as [|b before IH]; intros keys Hbefore Hnil.
  - cbn [app]. now rewrite collectKeys_cons, Hnil.
  - cbn [app]. rewrite collectKeys_cons.
    pose proof (Hbefore b (or_introl eq_refl)) as Hb.
    destruct (scopeFields scope !! b) as [val|]; [|contradiction].
    assert (Hrest : forall b', In b' before -> scopeFields scope !! b' <> None)
      by (intros b' Hin; apply Hbefore; now right).
    destruct val; try reflexivity; now apply IH.
Qed.

Lemma columnValues_app (scope : Scope) (before after : list string) :
  forall valsBefore valsAfter : list Value,
    columnValues scope before = Some valsBefore ->
    columnValues scope after = Some valsAfter ->
    columnValues scope (before ++ after) = Some (valsBefore ++ valsAfter).
Proof.
  induction before as [|b before IH]; intros valsBefore valsAfter Hb Ha.
  - inversion Hb. exact Ha.
  - apply columnValues_cons in Hb.
    destruct Hb as (val & rest & Hval & Hnil & Hrest & ->).
    cbn [app columnValues]. rewrite Hval, (IH rest valsAfter Hrest Ha).
    destruct val; [contradiction | reflexivity..].
Qed.

(** C6 (as amended): on the table of the rule and with no error on the
    operation, when every configured column of the record holds a value
    that is not nil, the callback deletes the cache entry at the namespace
    of the rule and the key made of the texts of these values, in the
    declared order, joined by the pipe character, and raises no error; when
    a configured column is absent from the record and every column before
    it holds a value that is not nil, it raises the error naming the
    column and deletes nothing. *)
Theorem purge_deletes_the_composite_key {C : Type} `{Cacher C}
    (namespace table : string) (columns : list string)
    (cacher : Recorded C Key) (scope : Scope) :
  TableName scope = table ->
  HasError scope = false ->
  (forall vals : list Value,
      columnValues scope columns = Some vals ->
      let result := callbackPurgeCache namespace table columns cacher scope in
      calls (fst result)
      = calls cacher
        ++ [{| Namespace := namespace;
               KeyName := Join (map Sprintf_v vals) "|" |}]
      /\ HasError (snd result) = false
      /\ scopeFields (snd result) = scopeFields scope)
  /\ (forall (before after : list string) (column : string)
             (vals : list Value),
         columns = before ++ column :: after ->
         columnValues scope before = Some vals ->
         scopeFields scope !! column = None ->
         callbackPurgeCache namespace table columns cacher scope
         = (cacher,
            Err scope ("table " +:+ quoted table +:+ " has no column "
                       +:+ quoted column))).
Proof.
  intros Htable Herr. split.
  - intros vals Hvals result. subst result. unfold callbackPurgeCache.
    rewrite Htable, String.eqb_refl, Herr. cbn [negb].
    rewrite (collectKeys_values _ _ _ vals []) by exact Hvals.
    cbn [app Delete Recorded_Cacher].
    destruct (Delete (inner cacher) _) as [c [err|]]; cbn [fst snd calls];
      rewrite HasError_Log, Herr; repeat split.
  - intros before after column vals Hcols Hvals Hnone.
    unfold callbackPurgeCache.
    rewrite Htable, String.eqb_refl, Herr. cbn [negb]. subst columns.
    now rewrite (collectKeys_missing _ _ _ _ _ vals []).
Qed.

Lemma purge_realm_42_witness :
  let scope := scopeOf "realms" [("id", VUint 42)] in
  TableName scope = "realms"
  /\ HasError scope = false
  /\ columnValues scope ["id"] = Some [VUint 42]
  /\ calls (fst (callbackPurgeCache "realms:by_id" "realms" ["id"]
                   (recording (mkMemCacher [])) scope))
     = [{| Namespace := "realms:by_id"; KeyName := "42" |}].
Proof.
  intros scope.
  split; [reflexivity|]. split; [reflexivity|]. split; [reflexivity|].
  destruct (purge_deletes_the_composite_key "realms:by_id" "realms" ["id"]
              (recording (mkMemCacher []))
              (scopeOf "realms" [("id", VUint 42)]) eq_refl eq_refl)
    as [Hdelete _].
  destruct (Hdelete [VUint 42] eq_refl) as [Hcalls _].
  exact Hcalls.
Defined.

(** C6 (the claim as stated fails): a record of the rule's table whose
    configured column holds nil.  No cache entry is deleted, the entry
    stays in the cache, and no error is raised. *)
Lemma purge_nil_value_neither_deletes_nor_fails :
  let entry := {| Namespace := "realms:by_id"; KeyName := "<nil>" |} in
  let scope := scopeOf "realms" [("id", VNil)] in
  let '(cacher, scope') :=
    callbackPurgeCache "realms:by_id" "realms" ["id"]
      (recording (mkMemCacher [entry])) scope in
  calls cacher = []
  /\ entries (inner cacher) = [entry]
  /\ HasError scope' = false.
Proof. vm_compute. repeat split. Qed.

(** C8: when the loop over the columns has made the key and the
    [Delete] call of the cacher returns an error, the callback logs the
    failure and adds no error to the operation, which stays without
    error. *)
Theorem purge_delete_failure_is_logged_not_raised {C : Type} `{Cacher C}
    (namespace table : string) (columns : list string)
    (cacher cacher' : C) (scope : Scope) (vals : list Value) (err : string) :
  TableName scope = table ->
  HasError scope = false ->
  columnValues scope columns = Some vals ->
  Delete cacher {| Namespace := namespace;
                   KeyName := Join (map Sprintf_v vals) "|" |}
  = (cacher', Some err) ->
  callbackPurgeCache namespace table columns cacher scope
  = (cacher', Log scope ("failed to delete cache key: " +:+ err))
  /\ scopeErrors (snd (callbackPurgeCache namespace table columns cacher scope))
     = []
  /\ HasError (snd (callbackPurgeCache namespace table columns cacher scope))
     = false.
Proof.
  intros Htable Herr Hvals Hdel.
  assert (Hrun : callbackPurgeCache namespace table columns cacher scope
                 = (cacher', Log scope ("failed to delete cache key: " +:+ err))).
  { unfold callbackPurgeCache.
    rewrite Htable, String.eqb_refl, Herr. cbn [negb].
    rewrite (collectKeys_values _ _ _ vals []) by exact Hvals.
    cbn [app]. now rewrite Hdel. }
  rewrite Hrun. cbn [snd]. rewrite HasError_Log. repeat split; try exact Herr.
  cbn. unfold HasError in Herr. destruct (scopeErrors scope); [reflexivity | discriminate].
Qed.

Lemma purge_delete_failure_witness :
  let scope := scopeOf "realms" [("id", VUint 42)] in
  callbackPurgeCache "realms:by_id" "realms" ["id"] BrokenCacher scope
  = (BrokenCacher,
     Log scope "failed to delete cache key: cache unavailable").
Proof.
  exact (proj1 (purge_delete_failure_is_logged_not_raised
                  "realms:by_id" "realms" ["id"] BrokenCacher BrokenCacher
                  (scopeOf "realms" [("id", VUint 42)]) [VUint 42]
                  "cache unavailable" eq_refl eq_refl eq_refl eq_refl)).
Defined.

(** C10 (as amended): when a configured column exists on the record and
    holds the nil interface value, the one value the check [val == nil]
    recognises, and no column configured before it is absent from the
    record, the callback returns with the cacher and the scope as they
    were: nothing is deleted, nothing is logged and no error is raised.  A
    column that holds a nil pointer is not skipped: on the table of the
    rule, with no error on the operation and the other configured columns
    holding values that are not the nil interface value, the text [<nil>]
    takes the place of the column in the key, the entry at that key is
    deleted and no error is raised. *)
Theorem purge_skips_nil_value {C : Type} `{Cacher C}
    (namespace table : string) (before after : list string)
    (column : string) (cacher : Recorded C Key) (scope : Scope) :
  ((forall b, In b before -> scopeFields scope !! b <> None) ->
   scopeFields scope !! column = Some VNil ->
   callbackPurgeCache namespace table (before ++ column :: after) cacher scope
   = (cacher, scope))
  /\ (forall valsBefore valsAfter : list Value,
         TableName scope = table ->
         HasError scope = false ->
         scopeFields scope !! column = Some VNilStringPtr ->
         columnValues scope before = Some valsBefore ->
         columnValues scope after = Some valsAfter ->
         let result :=
           callbackPurgeCache namespace table (before ++ column :: after)
             cacher scope in
         calls (fst result)
         = calls cacher
           ++ [{| Namespace := namespace;
                  KeyName := Join (map Sprintf_v valsBefore
                                   ++ "<nil>" :: map Sprintf_v valsAfter) "|" |}]
         /\ HasError (snd result) = false
         /\ scopeFields (snd result) = scopeFields scope).
Proof.
  split.
  - intros Hbefore Hnil. unfold callbackPurgeCache.
    destruct (negb (String.eqb (TableName scope) table)); [reflexivity|].
    destruct (HasError scope); [reflexivity|].
    now rewrite (collectKeys_nil _ _ _ _ _ [] Hbefore Hnil).
  - intros valsBefore valsAfter Htable Herr Hptr Hb Ha result. subst result.
    assert (Hvals : columnValues scope (before ++ column :: after)
                    = Some (valsBefore ++ VNilStringPtr :: valsAfter)).
    { apply columnValues_app; [exact Hb|].
      cbn [columnValues]. now rewrite Hptr, Ha. }
    unfold callbackPurgeCache.
    rewrite Htable, String.eqb_refl, Herr. cbn [negb].
    rewrite (collectKeys_values _ _ _ _ [] Hvals).
    cbn [app]. rewrite map_app. cbn [map Sprintf_v].
    cbn [Delete Recorded_Cacher].
    destruct (Delete (inner cacher) _) as [c [err|]]; cbn [fst snd calls];
      rewrite HasError_Log, Herr; repeat split.
Qed.

Lemma purge_skips_nil_value_witness :
  let skipped := scopeOf "users" [("id", VUint 7); ("email", VNil)] in
  let kept := scopeOf "users" [("id", VUint 7); ("email", VNilStringPtr)] in
  callbackPurgeCache "users:by_id_email" "users" ["id"; "email"]
    (recording (mkMemCacher [])) skipped
  = (recording (mkMemCacher []), skipped)
  /\ calls (fst (callbackPurgeCache "users:by_id_email" "users" ["id"; "email"]
                   (recording (mkMemCacher [])) kept))
     = [{| Namespace := "users:by_id_email"; KeyName := "7|<nil>" |}].
Proof.
  intros skipped kept. split.
  - apply (proj1 (purge_skips_nil_value "users:by_id_email" "users"
                    ["id"] [] "email" (recording (mkMemCacher [])) skipped)).
    + intros b [<-|[]]. vm_compute. discriminate.
    + reflexivity.
  - exact (proj1 (proj2 (purge_skips_nil_value "users:by_id_email" "users"
                           ["id"] [] "email" (recording (mkMemCacher [])) kept)
                    [VUint 7] [] eq_refl eq_refl eq_refl eq_refl eq_refl)).
Defined.

(** C10 (the claim as stated fails), twice.  The rule lists two columns;
    the record lacks the first and holds nil in the second: the second
    column exists on the record with the value nil, yet the callback
    raises the error for the first.  And the column of a rule holds a nil
    pointer: the callback deletes the cache entry under the text [<nil>]. *)
Lemma purge_nil_value_fails_or_deletes :
  (let scope := scopeOf "users" [("email", VNil)] in
   let '(cacher, scope') :=
     callbackPurgeCache "users:by_id_email" "users" ["id"; "email"]
       (recording (mkMemCacher [])) scope in
   scopeFields scope !! "email" = Some VNil
   /\ HasError scope' = true
   /\ scopeErrors scope' = ["table " +:+ quoted "users" +:+ " has no column "
                            +:+ quoted "id"])
  /\ (let entry := {| Namespace := "users:by_email"; KeyName := "<nil>" |} in
      let scope := scopeOf "users" [("email", VNilStringPtr)] in
      let '(cacher, scope') :=
        callbackPurgeCache "users:by_email" "users" ["email"]
          (recording (mkMemCacher [entry])) scope in
      scopeFields scope !! "email" = Some VNilStringPtr
      /\ calls cacher = [entry]
      /\ entries (inner cacher) = []
      /\ HasError scope' = false).
Proof. vm_compute. repeat split. Qed.

(** ** Retries *)

Lemma Next_maxRetries (max attempt : N) (t : Duration) :
  Next (mkMaxRetries max attempt (mkConstant t))
  = if (max <=? attempt)%N
    then (mkMaxRetries max attempt (mkConstant t), (0, true))
    else (mkMaxRetries max (attempt + 1) (mkConstant t), (t, false)).
Proof. cbn. destruct (max <=? attempt)%N; reflexivity. Qed.

Lemma last_cons_nonempty {A : Type} (x d : A) (l : list A) :
  (1 <= List.length l)%nat -> List.last (x :: l) d = List.last l d.
Proof. destruct l; simpl; [lia | reflexivity]. Qed.

Lemma removelast_cons_nonempty {A : Type} (x : A) (l : list A) :
  (1 <= List.length l)%nat -> removelast (x :: l) = x :: removelast l.
Proof. destruct l; simpl; [lia | reflexivity]. Qed.

(** The loop of [retry.Do] under the backoff of [withRetries], from a
    state in which [attempt] retries were already allowed and [n] remain:
    it ends within the fuel, after at most [n + 1] calls of the function
    and [n] waits of one second each. *)
Lemma Do_with_capped_constant_backoff {S : Type}
    (ctx : Context S) (f : RetryFunc S) (n : nat) :
  forall (attempt : N) (fuel : nat) (p : Probe S),
    (N.to_nat attempt + n = 30)%nat ->
    (n < fuel)%nat ->
    exists (p' : Probe S) (res : option string)
           (new : list (option FuncError)) (nw : list Duration),
      Do fuel (probeContext ctx)
         (mkMaxRetries 30 attempt (mkConstant Second)) (probeFunc f) p
      = Some (p', res)
      /\ attempts p' = attempts p ++ new
      /\ waits p' = waits p ++ nw
      /\ (1 <= List.length new <= n + 1)%nat
      /\ (List.length nw <= n)%nat
      /\ (List.length nw <= List.length new <= List.length nw + 1)%nat
      /\ Forall (fun d => d = Second) nw
      /\ Forall isRetryable (removelast new)
      /\ (List.last new None = None -> res = None)
      /\ (forall e, List.last new None = Some (PlainError e) -> res = Some e)
      /\ (List.length new = (n + 1)%nat ->
          forall e, List.last new None = Some (RetryableError e) ->
                    res = Some e).
Proof.
  induction n as [|n IH]; intros attempt fuel p Hleft Hfuel;
    (destruct fuel as [|fuel]; [lia|]);
    cbn [Do]; unfold probeFunc at 1;
    destruct (f (probed p)) as [s [[e|e]|]] eqn:Hf.
  - (* no retry left: the retryable error is returned *)
    rewrite Next_maxRetries.
    replace (30 <=? attempt)%N with true by (symmetry; apply N.leb_le; lia).
    eexists _, _, [Some (RetryableError e)], []. cbn [attempts waits].
    rewrite app_nil_r. repeat split; simpl; try lia; try constructor;
      intros; congruence.
  - eexists _, _, [Some (PlainError e)], []. cbn [attempts waits].
    rewrite app_nil_r. repeat split; simpl; try lia; try constructor;
      intros; congruence.
  - eexists _, _, [None], []. cbn [attempts waits].
    rewrite app_nil_r. repeat split; simpl; try lia; try constructor;
      intros; congruence.
  - rewrite Next_maxRetries.
    replace (30 <=? attempt)%N with false by (symmetry; apply N.leb_gt; lia).
    unfold probeContext at 1. cbn [probed attempts waits].
    destruct (ctx s Second) as [s' [ctxErr|]] eqn:Hctx.
    + (* the context ended during the wait *)
      eexists _, _, [Some (RetryableError e)], [Second]. cbn [attempts waits].
      repeat split; simpl; try lia; try (repeat constructor);
        intros; try congruence; lia.
    + destruct (IH (attempt + 1)%N fuel
                  (mkProbe s' (attempts p ++ [Some (RetryableError e)])
                           (waits p ++ [Second])))
        as (p' & res & new & nw & Hrun & Hatt & Hwaits & Hlen & Hnw & Hrel
            & Hsec & Hretry & Hnone & Hplain & Hlast); [lia | lia |].
      cbn [attempts waits] in Hatt, Hwaits.
      exists p', res, (Some (RetryableError e) :: new), (Second :: nw).
      rewrite Hrun, Hatt, Hwaits, <- !app_assoc. cbn [app].
      rewrite removelast_cons_nonempty, !last_cons_nonempty by lia.
      repeat split; cbn [List.length]; try lia;
        try (constructor; [reflexivity | assumption]);
        try (constructor; [exact I | assumption]); try assumption.
      intros Hall. apply Hlast. lia.
  - eexists _, _, [Some (PlainError e)], []. cbn [attempts waits].
    rewrite app_nil_r. repeat split; simpl; try lia; try constructor;
      intros; congruence.
  - eexists _, _, [None], []. cbn [attempts waits].
    rewrite app_nil_r. repeat split; simpl; try lia; try constructor;
      intros; congruence.
Qed.

(** C9 (as amended): [withRetries] ends, and it calls the operation at
    least once and at most 31 times: a first attempt and at most 30
    retries.  It waits one second before every retry and at most 30 times.
    Every attempt but the last failed with a retryable error, so an error
    that is not retryable ends the run at once and is the result; success
    ends it without error; and when all 31 attempts were made, the error of
    the last attempt is the result. *)
Theorem withRetries_runs_at_most_31_attempts {S : Type}
    (ctx : Context S) (f : RetryFunc S) (s : S) (extra : nat) :
  exists (p : Probe S) (res : option string),
    withRetries (31 + extra) (probeContext ctx) (probeFunc f) (probe s)
    = Some (p, res)
    /\ (1 <= List.length (attempts p) <= 31)%nat
    /\ (List.length (waits p) <= 30)%nat
    /\ (List.length (waits p) <= List.length (attempts p)
        <= List.length (waits p) + 1)%nat
    /\ Forall (fun d => d = Second) (waits p)
    /\ Forall isRetryable (removelast (attempts p))
    /\ (List.last (attempts p) None = None -> res = None)
    /\ (forall e, List.last (attempts p) None = Some (PlainError e) ->
                  res = Some e)
    /\ (List.length (attempts p) = 31%nat ->
        forall e, List.last (attempts p) None = Some (RetryableError e) ->
                  res = Some e).
Proof.
  unfold withRetries. cbn [NewConstant Z.mul Second Z.leb Z.compare].
  unfold WithMaxRetries.
  destruct (Do_with_capped_constant_backoff ctx f 30 0%N (31 + extra)
              (probe s))
    as (p & res & new & nw & Hrun & Hatt & Hwaits & Hlen & Hnw & Hrel
        & Hsec & Hretry & Hnone & Hplain & Hlast); [reflexivity | lia |].
  cbn [probe attempts waits app] in Hatt, Hwaits.
  exists p, res. rewrite Hatt, Hwaits.
  split; [exact Hrun|].
  repeat split; try lia; assumption.
Qed.

(** C9 (the claim as stated fails): an operation that fails with a
    retryable error every time is called 31 times, more than 30, before
    [withRetries] gives up with the error of the 31st call. *)
Lemma withRetries_makes_a_31st_attempt :
  exists p : Probe N,
    withRetries 31 (probeContext background) (probeFunc alwaysFailing)
      (probe 0%N)
    = Some (p, Some "ping 31 failed")
    /\ List.length (attempts p) = 31%nat
    /\ ~ (List.length (attempts p) <= 30)%nat.
Proof.
  eexists. split; [vm_compute; reflexivity|].
  split; [reflexivity | cbn; lia].
Qed.

(** * Further properties of the code *)

(** ** pkg/rbac: compiling permissions *)

Lemma compileLoop_spec (actor : Permission) (toUpdate : list Permission) :
  forall permission,
    compileLoop actor toUpdate permission
    = if forallb (Can actor) toUpdate
      then Ok (fold_left Z.lor toUpdate permission)
      else Error "actor does not have all scopes which are being granted".
Proof.
  induction toUpdate as [|update toUpdate IH]; intros permission; cbn;
    [reflexivity|].
  destruct (Can actor update); cbn; [apply IH | reflexivity].
Qed.

Lemma fold_lor_bits (toUpdate : list Permission) :
  forall permission n,
    Z.testbit (fold_left Z.lor toUpdate permission) n
    = Z.testbit permission n || existsb (fun u => Z.testbit u n) toUpdate.
Proof.
  induction toUpdate as [|update toUpdate IH]; intros permission n; cbn.
  - now rewrite orb_false_r.
  - now rewrite IH, Z.lor_spec, orb_assoc.
Qed.

(** X1: [CompileAndAuthorize] grants all or nothing: when the actor can
    every listed update, the result is the union of the updates, bit by
    bit; as soon as the actor cannot one of them, the result is the error
    and no permission. *)
Theorem CompileAndAuthorize_all_or_nothing
    (actor : Permission) (toUpdate : list Permission) :
  CompileAndAuthorize actor toUpdate
  = (if forallb (Can actor) toUpdate
     then Ok (fold_left Z.lor toUpdate 0)
     else Error "actor does not have all scopes which are being granted")
  /\ forall n,
       Z.testbit (fold_left Z.lor toUpdate 0) n
       = existsb (fun u => Z.testbit u n) toUpdate.
Proof.
  split; [apply compileLoop_spec|].
  intros n. now rewrite fold_lor_bits, Z.bits_0.
Qed.

Lemma Can_true (given target : Permission) :
  Can given target = true <-> Z.land given target <> 0.
Proof.
  unfold Can. rewrite negb_true_iff. apply Z.eqb_neq.
Qed.

Lemma Can_single_bit (given : Permission) (k : Z) :
  0 <= k -> Can given (Z.shiftl 1 k) = true -> Z.testbit given k = true.
Proof.
  intros Hk Hcan. apply Can_true in Hcan.
  destruct (Z.testbit given k) eqn:Hbit; [reflexivity|].
  exfalso. apply Hcan. apply Z.bits_inj'. intros n Hn.
  rewrite Z.land_spec, Z.bits_0, Z.shiftl_1_l, Z.pow2_bits_eqb by lia.
  destruct (Z.eqb_spec k n) as [->|Hne];
    [now rewrite Hbit | apply andb_false_r].
Qed.

Lemma granted_within_actor (actor : Permission) (toUpdate : list Permission) :
  Forall singleBit toUpdate ->
  forallb (Can actor) toUpdate = true ->
  Z.land (fold_left Z.lor toUpdate 0) actor = fold_left Z.lor toUpdate 0.
Proof.
  intros Hbits Hcan. apply Z.bits_inj'. intros n Hn.
  rewrite Z.land_spec, fold_lor_bits, Z.bits_0. cbn [orb].
  destruct (existsb (fun u => Z.testbit u n) toUpdate) eqn:Hex; [|reflexivity].
  apply existsb_exists in Hex. destruct Hex as (u & Hin & Hu).
  rewrite List.Forall_forall in Hbits. destruct (Hbits u Hin) as (k & Hk & ->).
  rewrite forallb_forall in Hcan. specialize (Hcan _ Hin).
  rewrite Z.shiftl_1_l, Z.pow2_bits_eqb in Hu by lia.
  apply Z.eqb_eq in Hu. subst n.
  now rewrite (Can_single_bit actor k Hk Hcan).
Qed.

(** X2: no escalation through single permissions: when every listed update is
    a permission of one bit and [CompileAndAuthorize] succeeds, the
    compiled permission lies within the actor's, and whatever it can do the
    actor can do. *)
Theorem CompileAndAuthorize_single_bits_stay_within_actor
    (actor permission : Permission) (toUpdate : list Permission) :
  Forall singleBit toUpdate ->
  CompileAndAuthorize actor toUpdate = Ok permission ->
  Z.land permission actor = permission
  /\ forall target, Can permission target = true -> Can actor target = true.
Proof.
  intros Hbits Hrun. unfold CompileAndAuthorize in Hrun.
  rewrite compileLoop_spec in Hrun.
  destruct (forallb (Can actor) toUpdate) eqn:Hcan; [|discriminate].
  inversion Hrun as [Hp]. clear Hrun.
  pose proof (granted_within_actor actor toUpdate Hbits Hcan) as Hin.
  split; [exact Hin|].
  intros target Htarget. apply Can_true in Htarget. apply Can_true.
  intros Hzero. apply Htarget.
  rewrite <- Hin, <- Z.land_assoc, Hzero. apply Z.land_0_r.
Qed.

Lemma single_bits_witness :
  Forall singleBit [CodeIssue; CodeRead]
  /\ CompileAndAuthorize LegacyRealmUser [CodeIssue; CodeRead] = Ok 80
  /\ Z.land 80 LegacyRealmUser = 80.
Proof.
  assert (Hbits : Forall singleBit [CodeIssue; CodeRead]).
  { repeat constructor; [exists 4 | exists 6]; split; try lia; reflexivity. }
  split; [exact Hbits|]. split; [reflexivity|].
  exact (proj1 (CompileAndAuthorize_single_bits_stay_within_actor
                  LegacyRealmUser 80 [CodeIssue; CodeRead] Hbits eq_refl)).
Defined.

(** X3: an update of several bits is checked by [Can] for one common bit
    only: when the actor can [held], an update made of [held] and any
    other bits [extra] is granted whole, whether or not the actor holds
    [extra]. *)
Theorem CompileAndAuthorize_grants_composite_update_whole
    (actor held extra : Permission) :
  Can actor held = true ->
  CompileAndAuthorize actor [Z.lor held extra] = Ok (Z.lor held extra).
Proof.
  intros Hcan. unfold CompileAndAuthorize. cbn [compileLoop].
  assert (Hboth : Can actor (Z.lor held extra) = true).
  { apply Can_true. apply Can_true in Hcan.
    rewrite Z.land_lor_distr_r. intros Hzero.
    apply Z.lor_eq_0_iff in Hzero. now apply Hcan. }
  now rewrite Hboth.
Qed.

Lemma composite_update_witness :
  Can CodeIssue CodeIssue = true
  /\ Can CodeIssue UserWrite = false
  /\ CompileAndAuthorize CodeIssue [Z.lor CodeIssue UserWrite]
     = Ok (Z.lor CodeIssue UserWrite).
Proof.
  split; [reflexivity|]. split; [reflexivity|].
  exact (CompileAndAuthorize_grants_composite_update_whole
           CodeIssue CodeIssue UserWrite eq_refl).
Defined.

(** ** pkg/rbac: names of permissions *)

Lemma names_fold (p : Permission)
    (order : list (Permission * (string * string))) :
  forall names,
    fold_left (fun names vk =>
                 if Can p (fst vk) then names ++ [fst (snd vk)] else names)
              order names
    = names ++ map (fun vk => fst (snd vk))
                   (List.filter (fun vk => Can p (fst vk)) order).
Proof.
  induction order as [|vk order IH]; intros names; cbn.
  - now rewrite app_nil_r.
  - rewrite IH. destruct (Can p (fst vk)); cbn; [|reflexivity].
    now rewrite <- app_assoc.
Qed.

Lemma filter_Permutation_list {A : Type} (f : A -> bool) (l1 l2 : list A) :
  Permutation l1 l2 -> Permutation (List.filter f l1) (List.filter f l2).
Proof.
  induction 1 as [|x l1 l2 _ IH|x y l|l1 l2 l3 _ IH1 _ IH2]; cbn.
  - constructor.
  - destruct (f x); [now constructor | exact IH].
  - destruct (f x), (f y); try reflexivity. constructor.
  - now transitivity (List.filter f l2).
Qed.

Lemma PermissionNames_Permutation (p : Permission)
    (order : list (Permission * (string * string))) :
  Permutation (PermissionNames order p)
    (map (fun vk => fst (snd vk))
         (List.filter (fun vk => Can p (fst vk)) order)).
Proof.
  unfold PermissionNames, sortStrings. rewrite merge_sort_Permutation.
  now rewrite names_fold.
Qed.

(** X4: [PermissionNames] does not depend on the order in which the loop
    meets the entries of the map: in whatever order, the result is the
    same list, in increasing order, of exactly the names of the entries the
    given permission can. *)
Theorem PermissionNames_sorted_names_of_held_permissions
    (order : list (Permission * (string * string))) (p : Permission) :
  Permutation order PermissionMapEntries ->
  PermissionNames order p = PermissionNames PermissionMapEntries p
  /\ increasing (PermissionNames order p)
  /\ forall name,
       In name (PermissionNames order p)
       <-> exists perm descr,
             In (perm, (name, descr)) PermissionMapEntries
             /\ Can p perm = true.
Proof.
  intros Horder.
  assert (Hsorted : forall l, increasing (PermissionNames l p)).
  { intros l. unfold increasing, PermissionNames, sortStrings.
    apply Sorted_merge_sort; apply _. }
  split; [|split; [apply Hsorted|]].
  - apply (Sorted_unique String.le); [apply Hsorted | apply Hsorted |].
    rewrite !PermissionNames_Permutation.
    apply Permutation_map. now apply filter_Permutation_list.
  - intros name.
    rewrite (Permutation_in' (eq_refl name) (PermissionNames_Permutation p order)).
    rewrite in_map_iff. split.
    + intros ([perm [name' descr]] & Hname & Hin). cbn in Hname. subst name'.
      apply filter_In in Hin. destruct Hin as [Hin Hcan].
      exists perm, descr. split; [|exact Hcan].
      now apply (Permutation_in _ Horder).
    + intros (perm & descr & Hin & Hcan).
      exists (perm, (name, descr)). split; [reflexivity|].
      apply filter_In. split; [|exact Hcan].
      now apply (Permutation_in _ (Permutation_sym Horder)).
Qed.

Lemma PermissionNames_witness :
  Permutation (rev PermissionMapEntries) PermissionMapEntries
  /\ PermissionNames (rev PermissionMapEntries) LegacyRealmUser
     = ["CodeBulkIssue"; "CodeExpire"; "CodeIssue"; "CodeRead"].
Proof.
  assert (Hperm : Permutation (rev PermissionMapEntries) PermissionMapEntries)
    by (symmetry; apply Permutation_rev).
  split; [exact Hperm|].
  rewrite (proj1 (PermissionNames_sorted_names_of_held_permissions
                    (rev PermissionMapEntries) LegacyRealmUser Hperm)).
  reflexivity.
Defined.

(** ** pkg/rbac: the map of names *)

Lemma PermissionMapEntries_keys_NoDup :
  NoDup (map fst PermissionMapEntries).
Proof. apply (bool_decide_unpack _). vm_compute. exact I. Qed.

Lemma PermissionMapEntries_names_NoDup :
  NoDup (map (fun kv => fst (snd kv)) PermissionMapEntries).
Proof. apply (bool_decide_unpack _). vm_compute. exact I. Qed.

Lemma PermissionMap_lookup (perm : Permission) (name descr : string) :
  PermissionMap !! perm = Some (name, descr)
  <-> In (perm, (name, descr)) PermissionMapEntries.
Proof.
  unfold PermissionMap. rewrite <- list_elem_of_In.
  symmetry. apply elem_of_list_to_map. apply PermissionMapEntries_keys_NoDup.
Qed.

Lemma initNamePermissionMap_snoc
    (order : list (Permission * (string * string)))
    (kv : Permission * (string * string)) :
  initNamePermissionMap (order ++ [kv])
  = <[fst (snd kv) := fst kv]> (initNamePermissionMap order).
Proof. unfold initNamePermissionMap. now rewrite fold_left_app. Qed.

Lemma initNamePermissionMap_lookup
    (order : list (Permission * (string * string))) :
  NoDup (map (fun kv => fst (snd kv)) order) ->
  forall name perm,
    initNamePermissionMap order !! name = Some perm
    <-> exists descr, In (perm, (name, descr)) order.
Proof.
  induction order as [|[perm' [name' descr']] order IH] using rev_ind;
    intros Hnodup name perm.
  - cbn. split; [intros Hl; discriminate | intros [descr []]].
  - rewrite map_app in Hnodup. apply NoDup_app in Hnodup.
    destruct Hnodup as (Hnd & Hfresh & _).
    rewrite initNamePermissionMap_snoc. cbn [fst snd].
    destruct (decide (name' = name)) as [->|Hne].
    + rewrite lookup_insert_eq. split.
      * intros Heq. inversion Heq. subst perm'. exists descr'.
        apply in_or_app. right. now left.
      * intros [descr Hin]. apply in_app_or in Hin.
        destruct Hin as [Hin|[Heq|[]]]; [|now inversion Heq].
        exfalso. apply (Hfresh name).
        -- apply list_elem_of_In. apply in_map_iff.
           now exists (perm, (name, descr)).
        -- cbn. left.
    + rewrite lookup_insert_ne by exact Hne. rewrite (IH Hnd). split.
      * intros [descr Hin]. exists descr. apply in_or_app. now left.
      * intros [descr Hin]. apply in_app_or in Hin.
        destruct Hin as [Hin|[Heq|[]]]; [now exists descr|].
        inversion Heq. contradiction.
Qed.

(** X5: [NamePermissionMap] is the inverse of the names of [PermissionMap],
    in whatever order [init] meets the entries: the name of every
    permission of the map leads back to that permission, and every name of
    [NamePermissionMap] is the [String] of the permission it gives. *)
Theorem NamePermissionMap_inverts_String
    (order : list (Permission * (string * string))) :
  Permutation order PermissionMapEntries ->
  (forall perm v,
      PermissionMap !! perm = Some v ->
      initNamePermissionMap order !! Permission_String perm = Some perm)
  /\ (forall name perm,
         initNamePermissionMap order !! name = Some perm ->
         Permission_String perm = name).
Proof.
  intros Horder.
  assert (Hnodup : NoDup (map (fun kv => fst (snd kv)) order)).
  { rewrite (Permutation_map (fun kv => fst (snd kv)) Horder).
    apply PermissionMapEntries_names_NoDup. }
  split.
  - intros perm [name descr] Hlookup. unfold Permission_String.
    rewrite Hlookup. cbn [fst].
    apply (initNamePermissionMap_lookup order Hnodup). exists descr.
    apply (Permutation_in _ (Permutation_sym Horder)).
    now apply PermissionMap_lookup.
  - intros name perm Hlookup.
    apply (initNamePermissionMap_lookup order Hnodup) in Hlookup.
    destruct Hlookup as [descr Hin].
    apply (Permutation_in _ Horder), PermissionMap_lookup in Hin.
    unfold Permission_String. now rewrite Hin.
Qed.

Lemma NamePermissionMap_witness :
  Permutation (rev PermissionMapEntries) PermissionMapEntries
  /\ PermissionMap !! UserRead = Some ("UserRead", "view user information")
  /\ initNamePermissionMap (rev PermissionMapEntries)
       !! Permission_String UserRead = Some UserRead.
Proof.
  assert (Hperm : Permutation (rev PermissionMapEntries) PermissionMapEntries)
    by (symmetry; apply Permutation_rev).
  split; [exact Hperm|]. split; [reflexivity|].
  exact (proj1 (NamePermissionMap_inverts_String
                  (rev PermissionMapEntries) Hperm)
               UserRead _ eq_refl).
Defined.

(** ** Helpers of database.go: pointers *)

(** X6: [stringValue] undoes [stringPtr] on every string; [stringPtr] never
    gives a pointer to the empty string, and it undoes [stringValue] on
    every pointer but a pointer to the empty string, which becomes nil. *)
Theorem stringPtr_stringValue_round_trip :
  (forall s, stringValue (stringPtr s) = s)
  /\ (forall s, stringPtr s <> Some "")
  /\ (forall p, stringPtr (stringValue p) = p <-> p <> Some "")
  /\ stringPtr (stringValue (Some "")) = None.
Proof.
  repeat split.
  - intros s. unfold stringPtr.
    destruct (String.eqb_spec s ""); [now subst | reflexivity].
  - intros s. unfold stringPtr.
    destruct (String.eqb_spec s ""); [discriminate | congruence].
  - intros Heq Hp. subst p. discriminate.
  - intros Hp. destruct p as [v|]; [|reflexivity]. cbn. unfold stringPtr.
    destruct (String.eqb_spec v ""); [now subst | reflexivity].
Qed.

(** X7: the same for [uintValue] and [uintPtr], with 0 in the place of the
    empty string. *)
Theorem uintPtr_uintValue_round_trip :
  (forall v, uintValue (uintPtr v) = v)
  /\ (forall v, uintPtr v <> Some 0%N)
  /\ (forall p, uintPtr (uintValue p) = p <-> p <> Some 0%N)
  /\ uintPtr (uintValue (Some 0%N)) = None.
Proof.
  repeat split.
  - intros v. unfold uintPtr.
    destruct (N.eqb_spec v 0); [now subst | reflexivity].
  - intros v. unfold uintPtr.
    destruct (N.eqb_spec v 0); [discriminate | congruence].
  - intros Heq Hp. subst p. discriminate.
  - intros Hp. destruct p as [v|]; [|reflexivity]. cbn. unfold uintPtr.
    destruct (N.eqb_spec v 0); [now subst | reflexivity].
Qed.

(** ** Helpers of database.go: diffs *)

Lemma append_cons (x : ascii) (a b : string) :
  String x a +:+ b = String x (a +:+ b).
Proof. reflexivity. Qed.

Lemma append_nil_l (a : string) : "" +:+ a = a.
Proof. reflexivity. Qed.

Lemma append_assoc (a b c : string) : (a +:+ b) +:+ c = a +:+ (b +:+ c).
Proof.
  induction a as [|x a IH]; [reflexivity|].
  rewrite !append_cons. f_equal. exact IH.
Qed.

Lemma append_nil_r (a : string) : a +:+ "" = a.
Proof.
  induction a as [|x a IH]; [reflexivity|].
  rewrite append_cons. f_equal. exact IH.
Qed.

Lemma writeLines_from (sign : string) (lines : list string) :
  forall w, writeLines sign lines w = w +:+ writeLines sign lines "".
Proof.
  unfold writeLines.
  induction lines as [|line lines IH]; intros w; cbn [fold_left].
  - now rewrite append_nil_r.
  - rewrite (IH (w +:+ sign +:+ line +:+ newline)),
            (IH ("" +:+ sign +:+ line +:+ newline)).
    rewrite append_nil_l. now rewrite !append_assoc.
Qed.

Lemma writeLines_cons (sign line : string) (lines : list string) :
  writeLines sign (line :: lines) ""
  = sign +:+ line +:+ newline +:+ writeLines sign lines "".
Proof.
  change (writeLines sign (line :: lines) "")
    with (writeLines sign lines ("" +:+ sign +:+ line +:+ newline)).
  rewrite (writeLines_from sign lines ("" +:+ sign +:+ line +:+ newline)).
  rewrite append_nil_l. now rewrite !append_assoc.
Qed.

Lemma splitLines_not_nil (s : string) : splitLines s <> [].
Proof.
  induction s as [|c s IH]; cbn; [discriminate|].
  destruct (Ascii.eqb c lineFeed); [discriminate|].
  destruct (splitLines s); discriminate.
Qed.

Lemma splitLines_noLineFeed (s : string) :
  Forall (fun line => noLineFeed line = true) (splitLines s).
Proof.
  induction s as [|c s IH]; cbn.
  - now repeat constructor.
  - destruct (Ascii.eqb c lineFeed) eqn:Hc.
    + constructor; [reflexivity | exact IH].
    + destruct (splitLines s) as [|line lines].
      * repeat constructor. cbn. now rewrite Hc.
      * inversion IH as [|? ? Hline Hlines]. subst.
        constructor; [|exact Hlines]. cbn. now rewrite Hc, Hline.
Qed.

Lemma splitLines_line (line rest : string) :
  noLineFeed line = true ->
  splitLines (line +:+ newline +:+ rest) = line :: splitLines rest.
Proof.
  induction line as [|c line IH]; intros Hline.
  - rewrite append_nil_l. unfold newline. rewrite append_cons, append_nil_l.
    cbn [splitLines]. now rewrite Ascii.eqb_refl.
  - cbn in Hline. apply andb_true_iff in Hline. destruct Hline as [Hc Hline].
    apply negb_true_iff in Hc.
    rewrite append_cons. cbn [splitLines]. rewrite Hc, (IH Hline). reflexivity.
Qed.

Lemma splitLines_single (s : string) :
  noLineFeed s = true -> splitLines s = [s].
Proof.
  induction s as [|c s IH]; intros Hs; [reflexivity|].
  cbn in Hs. apply andb_true_iff in Hs. destruct Hs as [Hc Hs].
  apply negb_true_iff in Hc. cbn. now rewrite Hc, (IH Hs).
Qed.

Lemma noLineFeed_append (a b : string) :
  noLineFeed (a +:+ b) = noLineFeed a && noLineFeed b.
Proof.
  induction a as [|c a IH]; [reflexivity|].
  rewrite append_cons. cbn [noLineFeed]. now rewrite IH, andb_assoc.
Qed.

Lemma splitLines_writeLines (sign : string) (lines : list string)
    (rest : string) :
  noLineFeed sign = true ->
  Forall (fun line => noLineFeed line = true) lines ->
  splitLines (writeLines sign lines "" +:+ rest)
  = map (fun line => sign +:+ line) lines ++ splitLines rest.
Proof.
  intros Hsign Hlines. induction Hlines as [|line lines Hline _ IH].
  - reflexivity.
  - rewrite writeLines_cons. cbn [map app].
    rewrite <- IH.
    rewrite <- (splitLines_line (sign +:+ line))
      by (rewrite noLineFeed_append, Hsign, Hline; reflexivity).
    now rewrite !append_assoc.
Qed.

(** X8: the diff of two texts, cut at its line feeds, is the lines of the
    first text, each after a minus sign, then the lines of the second,
    each after a plus sign, in their order, and the empty rest after the
    last line feed: as many signed lines as the two texts have lines. *)
Theorem stringDiff_lines (then' now : string) :
  splitLines (stringDiff then' now)
  = map (fun line => "-" +:+ line) (splitLines then')
    ++ map (fun line => "+" +:+ line) (splitLines now)
    ++ [""].
Proof.
  unfold stringDiff. rewrite (writeLines_from "+").
  rewrite (splitLines_writeLines "-") by (reflexivity || apply splitLines_noLineFeed).
  f_equal.
  rewrite <- (append_nil_r (writeLines "+" (splitLines now) "")).
  rewrite (splitLines_writeLines "+") by (reflexivity || apply splitLines_noLineFeed).
  reflexivity.
Qed.

Lemma stringDiff_of_lines (then' now : string) :
  noLineFeed then' = true ->
  noLineFeed now = true ->
  stringDiff then' now
  = "-" +:+ then' +:+ newline +:+ "+" +:+ now +:+ newline.
Proof.
  intros Hthen Hnow. unfold stringDiff.
  rewrite (splitLines_single _ Hthen), (splitLines_single _ Hnow).
  rewrite (writeLines_from "+"), !writeLines_cons.
  cbn [writeLines fold_left]. rewrite !append_nil_r.
  now rewrite !append_assoc.
Qed.

Lemma string_of_uint_noLineFeed (d : Decimal.uint) :
  noLineFeed (NilEmpty.string_of_uint d) = true.
Proof. induction d; cbn; try reflexivity; exact IHd. Qed.

(** X9: the diff of two numbers and of two booleans has exactly two lines:
    the old value after a minus sign and the new one after a plus sign,
    each ended by a line feed. *)
Theorem uintDiff_boolDiff_two_lines :
  (forall then' now : N,
      uintDiff then' now
      = "-" +:+ formatUint then' +:+ newline
        +:+ "+" +:+ formatUint now +:+ newline)
  /\ (forall then' now : bool,
         boolDiff then' now
         = "-" +:+ FormatBool then' +:+ newline
           +:+ "+" +:+ FormatBool now +:+ newline).
Proof.
  split.
  - intros then' now. unfold uintDiff.
    apply stringDiff_of_lines; apply string_of_uint_noLineFeed.
  - intros [|] [|]; reflexivity.
Qed.

Lemma keysNotIn_filter (other from : gset string) :
  keysNotIn other from
  = List.filter (fun k => negb (bool_decide (k ∈ other))) (rangeKeys from).
Proof.
  unfold keysNotIn.
  assert (Hfold : forall l acc,
             fold_left (fun acc k =>
                          if bool_decide (k ∈ other) then acc else acc ++ [k])
                       l acc
             = acc ++ List.filter (fun k => negb (bool_decide (k ∈ other))) l).
  { induction l as [|k l IH]; intros acc; cbn.
    - now rewrite app_nil_r.
    - rewrite IH. destruct (bool_decide (k ∈ other)); cbn; [reflexivity|].
      now rewrite <- app_assoc. }
  apply Hfold.
Qed.

Lemma keysNotIn_In (other from : gset string) (k : string) :
  In k (keysNotIn other from) <-> k ∈ from /\ k ∉ other.
Proof.
  rewrite keysNotIn_filter, filter_In. unfold rangeKeys.
  rewrite <- list_elem_of_In, elem_of_elements, negb_true_iff.
  rewrite bool_decide_eq_false. reflexivity.
Qed.

Lemma sortStrings_nil (l : list string) : sortStrings l = [] <-> l = [].
Proof.
  unfold sortStrings. split; intros Heq.
  - apply Permutation_nil_r. rewrite <- Heq. symmetry.
    apply merge_sort_Permutation.
  - subst l. reflexivity.
Qed.

Lemma append_eq_nil (a b : string) : a +:+ b = "" -> a = "" /\ b = "".
Proof.
  destruct a as [|x a].
  - rewrite append_nil_l. intros Hb. now split.
  - rewrite append_cons. discriminate.
Qed.

Lemma writeLines_nil (sign : string) (lines : list string) (w : string) :
  writeLines sign lines w = "" <-> w = "" /\ lines = [].
Proof.
  split.
  - intros Heq. rewrite writeLines_from in Heq.
    apply append_eq_nil in Heq. destruct Heq as [-> Hlines].
    split; [reflexivity|].
    destruct lines as [|line lines]; [reflexivity|].
    rewrite writeLines_cons in Hlines.
    apply append_eq_nil in Hlines. destruct Hlines as [_ Hlines].
    apply append_eq_nil in Hlines. destruct Hlines as [_ Hlines].
    apply append_eq_nil in Hlines. destruct Hlines as [Hnl _].
    discriminate.
  - intros [-> ->]. reflexivity.
Qed.

Lemma in_list_to_set (x : string) (l : list string) :
  x ∈ (list_to_set l : gset string) <-> In x l.
Proof. rewrite elem_of_list_to_set. apply list_elem_of_In. Qed.

Lemma keysNotIn_nil (a b : list string) :
  keysNotIn (list_to_set b) (list_to_set a) = []
  <-> forall x, In x a -> In x b.
Proof.
  split.
  - intros Hnil x Hin.
    destruct (decide (x ∈ (list_to_set b : gset string))) as [Hx|Hx];
      [now apply in_list_to_set|].
    assert (Hk : In x (keysNotIn (list_to_set b) (list_to_set a))).
    { apply keysNotIn_In. split; [now apply in_list_to_set | exact Hx]. }
    rewrite Hnil in Hk. destruct Hk.
  - intros Hsub.
    destruct (keysNotIn (list_to_set b) (list_to_set a)) as [|k ks] eqn:Hk;
      [reflexivity|].
    assert (Hin : In k (keysNotIn (list_to_set b) (list_to_set a)))
      by (rewrite Hk; now left).
    apply keysNotIn_In in Hin. destruct Hin as [Hka Hkb].
    exfalso. apply Hkb. apply in_list_to_set, Hsub. now apply in_list_to_set.
Qed.

(** X10: [stringSliceDiff] is empty exactly when the two slices have the
    same strings, whatever their order and however often a string is
    repeated. *)
Theorem stringSliceDiff_empty_iff_same_strings (then' now : list string) :
  stringSliceDiff then' now = ""
  <-> forall x, In x then' <-> In x now.
Proof.
  unfold stringSliceDiff. rewrite writeLines_nil, writeLines_nil.
  rewrite !sortStrings_nil, !keysNotIn_nil. split.
  - intros [[_ Hremoved] Hadded] x. split; [apply Hremoved | apply Hadded].
  - intros Hsame. repeat split; intros x; apply Hsame.
Qed.

(** X11: [stringSliceDiff] looks at the slices as sets: slices with the same
    strings, in another order or with repetitions, give the same diff. *)
Theorem stringSliceDiff_ignores_order_and_repetition
    (then1 then2 now1 now2 : list string) :
  (forall x, In x then1 <-> In x then2) ->
  (forall x, In x now1 <-> In x now2) ->
  stringSliceDiff then1 now1 = stringSliceDiff then2 now2.
Proof.
  intros Hthen Hnow. unfold stringSliceDiff.
  assert (Hset : forall a b : list string,
             (forall x, In x a <-> In x b) ->
             (list_to_set a : gset string) = list_to_set b).
  { intros a b Hab. apply set_eq. intros x.
    rewrite !in_list_to_set. apply Hab. }
  now rewrite (Hset _ _ Hthen), (Hset _ _ Hnow).
Qed.

Lemma stringSliceDiff_witness :
  (forall x, In x ["b"; "a"; "b"] <-> In x ["a"; "b"])
  /\ stringSliceDiff ["b"; "a"; "b"] ["c"; "a"]
     = stringSliceDiff ["a"; "b"] ["a"; "c"; "c"].
Proof.
  assert (H1 : forall x, In x ["b"; "a"; "b"] <-> In x ["a"; "b"])
    by (intros x; cbn; tauto).
  assert (H2 : forall x, In x ["c"; "a"] <-> In x ["a"; "c"; "c"])
    by (intros x; cbn; tauto).
  split; [exact H1|].
  exact (stringSliceDiff_ignores_order_and_repetition _ _ _ _ H1 H2).
Defined.

(** ** Decoding undoes encoding *)

Lemma lor_shiftl_add (q lo k : Z) :
  0 <= k -> 0 <= lo < 2 ^ k -> Z.lor (Z.shiftl q k) lo = q * 2 ^ k + lo.
Proof.
  intros Hk Hlo. rewrite <- Z.shiftl_mul_pow2 by exact Hk.
  rewrite <- Z.add_lor_land.
  assert (Hland : Z.land (Z.shiftl q k) lo = 0).
  { apply Z.bits_inj'. intros n Hn.
    rewrite Z.land_spec, Z.bits_0.
    destruct (Z.lt_ge_cases n k) as [Hlt|Hge].
    - now rewrite Z.shiftl_spec_low.
    - rewrite <- (Z.mod_small lo (2 ^ k)) by exact Hlo.
      rewrite Z.mod_pow2_bits_high by lia. apply andb_false_r. }
  rewrite Hland. lia.
Qed.

Lemma byteZ_bounded (b : byte) : 0 <= byteZ b < 256.
Proof. unfold byteZ. pose proof (Byte.to_N_bounded b). lia. Qed.

Lemma zByte_byteZ (z : Z) (b : byte) : z mod 256 = byteZ b -> zByte z = b.
Proof.
  intros Hz. unfold zByte. rewrite Hz. unfold byteZ.
  now rewrite N2Z.id, Byte.of_to_N.
Qed.

Lemma indexOf_get_std (n : nat) :
  (n < 64)%nat ->
  indexOf (match String.get n encodeStd with
           | Some c => c
           | None => "A"%char
           end) encodeStd
  = Some (Z.of_nat n).
Proof.
  intros Hn. do 64 (destruct n as [|n]; [reflexivity|]). lia.
Qed.

Lemma indexOf_sextet_std (v : Z) :
  indexOf (sextet encodeStd v) encodeStd = Some (v mod 64).
Proof.
  pose proof (Z.mod_pos_bound v 64 ltac:(lia)) as Hv.
  unfold sextet. rewrite indexOf_get_std by lia.
  now rewrite Z2Nat.id by lia.
Qed.

(** The three bytes of a group come back from its four 6-bit values. *)
Lemma group_of_three (a b c : Z) :
  0 <= a < 256 -> 0 <= b < 256 -> 0 <= c < 256 ->
  let v := Z.lor (Z.lor (Z.shiftl a 16) (Z.shiftl b 8)) c in
  let w := Z.lor (Z.lor (Z.lor (Z.shiftl (Z.shiftr v 18 mod 64) 18)
                               (Z.shiftl (Z.shiftr v 12 mod 64) 12))
                        (Z.shiftl (Z.shiftr v 6 mod 64) 6))
                 (v mod 64) in
  Z.shiftr w 16 mod 256 = a /\ Z.shiftr w 8 mod 256 = b /\ w mod 256 = c.
Proof.
  intros Ha Hb Hc v w.
  assert (Hv : v = a * 65536 + b * 256 + c).
  { subst v. rewrite (Z.shiftl_mul_pow2 b 8) by lia.
    rewrite (lor_shiftl_add a (b * 2 ^ 8) 16) by lia.
    replace (a * 2 ^ 16 + b * 2 ^ 8) with (Z.shiftl (a * 256 + b) 8)
      by (rewrite Z.shiftl_mul_pow2 by lia; lia).
    rewrite lor_shiftl_add by lia. lia. }
  assert (Hw : w = v).
  { subst w. rewrite !Z.shiftr_div_pow2 by lia.
    change (2 ^ 18) with 262144. change (2 ^ 12) with 4096.
    change (2 ^ 6) with 64.
    rewrite (Z.shiftl_mul_pow2 (v / 4096 mod 64) 12) by lia.
    rewrite (lor_shiftl_add _ (v / 4096 mod 64 * 2 ^ 12) 18)
      by (pose proof (Z.mod_pos_bound (v / 4096) 64); lia).
    rewrite (Z.shiftl_mul_pow2 (v / 64 mod 64) 6) by lia.
    replace (v / 262144 mod 64 * 2 ^ 18 + v / 4096 mod 64 * 2 ^ 12)
      with (Z.shiftl (v / 262144 mod 64 * 64 + v / 4096 mod 64) 12)
      by (rewrite Z.shiftl_mul_pow2 by lia; lia).
    rewrite (lor_shiftl_add _ (v / 64 mod 64 * 2 ^ 6) 12)
      by (pose proof (Z.mod_pos_bound (v / 64) 64); lia).
    replace ((v / 262144 mod 64 * 64 + v / 4096 mod 64) * 2 ^ 12
             + v / 64 mod 64 * 2 ^ 6)
      with (Z.shiftl ((v / 262144 mod 64 * 64 + v / 4096 mod 64) * 64
                      + v / 64 mod 64) 6)
      by (rewrite Z.shiftl_mul_pow2 by lia; lia).
    rewrite lor_shiftl_add by (pose proof (Z.mod_pos_bound v 64); lia).
    change (2 ^ 6) with 64. rewrite Hv. clear Hv v.
    Z.div_mod_to_equations. lia. }
  rewrite Hw, !Z.shiftr_div_pow2 by lia. rewrite Hv.
  change (2 ^ 16) with 65536. change (2 ^ 8) with 256.
  repeat split; Z.div_mod_to_equations; lia.
Qed.

Lemma group_of_two (a b : Z) :
  0 <= a < 256 -> 0 <= b < 256 ->
  let v := Z.lor (Z.shiftl a 16) (Z.shiftl b 8) in
  let w := Z.lor (Z.lor (Z.shiftl (Z.shiftr v 18 mod 64) 18)
                        (Z.shiftl (Z.shiftr v 12 mod 64) 12))
                 (Z.shiftl (Z.shiftr v 6 mod 64) 6) in
  Z.shiftr w 16 mod 256 = a /\ Z.shiftr w 8 mod 256 = b.
Proof.
  intros Ha Hb v w.
  assert (Hv : v = a * 65536 + b * 256).
  { subst v. rewrite (Z.shiftl_mul_pow2 b 8) by lia.
    rewrite (lor_shiftl_add a (b * 2 ^ 8) 16) by lia. lia. }
  assert (Hw : w = v).
  { subst w. rewrite !Z.shiftr_div_pow2 by lia.
    change (2 ^ 18) with 262144. change (2 ^ 12) with 4096.
    change (2 ^ 6) with 64.
    rewrite (Z.shiftl_mul_pow2 (v / 4096 mod 64) 12) by lia.
    rewrite (lor_shiftl_add _ (v / 4096 mod 64 * 2 ^ 12) 18)
      by (pose proof (Z.mod_pos_bound (v / 4096) 64); lia).
    rewrite (Z.shiftl_mul_pow2 (v / 64 mod 64) 6) by lia.
    replace (v / 262144 mod 64 * 2 ^ 18 + v / 4096 mod 64 * 2 ^ 12)
      with (Z.shiftl (v / 262144 mod 64 * 64 + v / 4096 mod 64) 12)
      by (rewrite Z.shiftl_mul_pow2 by lia; lia).
    rewrite (lor_shiftl_add _ (v / 64 mod 64 * 2 ^ 6) 12)
      by (pose proof (Z.mod_pos_bound (v / 64) 64); lia).
    rewrite Hv. clear Hv v. Z.div_mod_to_equations. lia. }
  rewrite Hw, !Z.shiftr_div_pow2 by lia. rewrite Hv.
  change (2 ^ 16) with 65536. change (2 ^ 8) with 256.
  split; Z.div_mod_to_equations; lia.
Qed.

Lemma group_of_one (a : Z) :
  0 <= a < 256 ->
  let v := Z.shiftl a 16 in
  let w := Z.lor (Z.shiftl (Z.shiftr v 18 mod 64) 18)
                 (Z.shiftl (Z.shiftr v 12 mod 64) 12) in
  Z.shiftr w 16 mod 256 = a.
Proof.
  intros Ha v w.
  assert (Hv : v = a * 65536)
    by (subst v; rewrite Z.shiftl_mul_pow2 by lia; lia).
  assert (Hw : w = v).
  { subst w. rewrite !Z.shiftr_div_pow2 by lia.
    change (2 ^ 18) with 262144. change (2 ^ 12) with 4096.
    rewrite (Z.shiftl_mul_pow2 (v / 4096 mod 64) 12) by lia.
    rewrite (lor_shiftl_add _ (v / 4096 mod 64 * 2 ^ 12) 18)
      by (pose proof (Z.mod_pos_bound (v / 4096) 64); lia).
    rewrite Hv. clear Hv v. Z.div_mod_to_equations. lia. }
  rewrite Hw, !Z.shiftr_div_pow2 by lia. rewrite Hv.
  change (2 ^ 16) with 65536. Z.div_mod_to_equations. lia.
Qed.

Lemma unsextets_sextets_bounded (n : nat) :
  forall src : list byte,
    (List.length src <= n)%nat ->
    exists vs,
      sextets encodeStd (encodeRaw encodeStd src) = Some vs
      /\ unsextets vs = Some src.
Proof.
  induction n as [|n IH]; intros src Hlen.
  - destruct src; [now exists [] | cbn in Hlen; lia].
  - destruct src as [|a [|b [|c rest]]].
    + now exists [].
    + cbn [encodeRaw sextets]. rewrite !indexOf_sextet_std.
      eexists. split; [reflexivity|]. cbn [unsextets].
      pose proof (group_of_one (byteZ a) (byteZ_bounded a)) as Ha.
      cbv zeta in Ha. now rewrite (zByte_byteZ _ a Ha).
    + cbn [encodeRaw sextets]. rewrite !indexOf_sextet_std.
      eexists. split; [reflexivity|]. cbn [unsextets].
      pose proof (group_of_two (byteZ a) (byteZ b)
                    (byteZ_bounded a) (byteZ_bounded b)) as [Ha Hb].
      now rewrite (zByte_byteZ _ a Ha), (zByte_byteZ _ b Hb).
    + destruct (IH rest) as (vs & Hvs & Hun); [cbn in Hlen; lia|].
      cbn [encodeRaw sextets]. rewrite !indexOf_sextet_std, Hvs.
      eexists. split; [reflexivity|]. cbn [unsextets]. rewrite Hun.
      pose proof (group_of_three (byteZ a) (byteZ b) (byteZ c)
                    (byteZ_bounded a) (byteZ_bounded b) (byteZ_bounded c))
        as (Ha & Hb & Hc).
      now rewrite (zByte_byteZ _ a Ha), (zByte_byteZ _ b Hb),
                  (zByte_byteZ _ c Hc).
Qed.

Lemma get_std_not_new_line (n : nat) :
  (n < 64)%nat ->
  isNewLine (match String.get n encodeStd with
             | Some c => c
             | None => "A"%char
             end) = false.
Proof.
  intros Hn. do 64 (destruct n as [|n]; [reflexivity|]). lia.
Qed.

Lemma sextet_std_not_new_line (v : Z) :
  isNewLine (sextet encodeStd v) = false.
Proof.
  pose proof (Z.mod_pos_bound v 64 ltac:(lia)) as Hv.
  unfold sextet. apply get_std_not_new_line. lia.
Qed.

Lemma dropNewLines_cons (c : ascii) (rest : string) :
  isNewLine c = false ->
  dropNewLines (String c rest) = String c (dropNewLines rest).
Proof. intros Hc. cbn [dropNewLines]. now rewrite Hc. Qed.

(** The encoder writes no new line character, so the decoders read its
    output as it stands. *)
Lemma dropNewLines_encodeRaw_bounded (n : nat) :
  forall src : list byte,
    (List.length src <= n)%nat ->
    dropNewLines (encodeRaw encodeStd src) = encodeRaw encodeStd src.
Proof.
  induction n as [|n IH]; intros src Hlen.
  - destruct src; [reflexivity | cbn in Hlen; lia].
  - destruct src as [|a [|b [|c rest]]]; [reflexivity|..];
      cbn [encodeRaw];
      rewrite !dropNewLines_cons by apply sextet_std_not_new_line;
      [reflexivity | reflexivity |].
    rewrite (IH rest); [reflexivity | cbn in Hlen; lia].
Qed.

Lemma dropNewLines_encodeRaw (src : list byte) :
  dropNewLines (encodeRaw encodeStd src) = encodeRaw encodeStd src.
Proof. exact (dropNewLines_encodeRaw_bounded (List.length src) src (le_n _)). Qed.

Lemma decodeUnpadded_round_trip (src : list byte) :
  decodeUnpadded (encodeRaw encodeStd src) = Ok src.
Proof.
  unfold decodeUnpadded.
  destruct (unsextets_sextets_bounded (List.length src) src (le_n _))
    as (vs & Hvs & Hun).
  now rewrite Hvs, Hun.
Qed.

Lemma RawStdEncoding_round_trip (src : list byte) :
  RawStdEncoding_DecodeString (RawStdEncoding_EncodeToString src) = Ok src.
Proof.
  unfold RawStdEncoding_DecodeString, RawStdEncoding_EncodeToString.
  rewrite dropNewLines_encodeRaw. apply decodeUnpadded_round_trip.
Qed.

Lemma get_std_not_pad (n : nat) :
  (n < 64)%nat ->
  Ascii.eqb (match String.get n encodeStd with
             | Some c => c
             | None => "A"%char
             end) "="%char = false.
Proof.
  intros Hn. do 64 (destruct n as [|n]; [reflexivity|]). lia.
Qed.

Lemma sextet_std_not_pad (v : Z) :
  Ascii.eqb (sextet encodeStd v) "="%char = false.
Proof.
  pose proof (Z.mod_pos_bound v 64 ltac:(lia)) as Hv.
  unfold sextet. apply get_std_not_pad. lia.
Qed.

Lemma stripPadding_group (a b c d x : ascii) (tail : string) :
  stripPadding
    (String a (String b (String c (String d (String x tail)))))
  = match stripPadding (String x tail) with
    | Some r => Some (String a (String b (String c (String d r))))
    | None => None
    end.
Proof. reflexivity. Qed.

Lemma stripPadding_encodeRaw_bounded (n : nat) :
  forall (src : list byte) (r : string),
    (List.length src <= n)%nat ->
    stripPadding (encodeRaw encodeStd src) = Some r ->
    r = encodeRaw encodeStd src.
Proof.
  induction n as [|n IH]; intros src r Hlen Hstrip.
  - destruct src; [now inversion Hstrip | cbn in Hlen; lia].
  - destruct src as [|a [|b [|c rest]]].
    + now inversion Hstrip.
    + cbn [encodeRaw stripPadding] in Hstrip. discriminate Hstrip.
    + cbn [encodeRaw stripPadding] in Hstrip. discriminate Hstrip.
    + cbn [encodeRaw] in *.
      destruct (encodeRaw encodeStd rest) as [|x tail] eqn:Hrest.
      * cbn [stripPadding] in Hstrip.
        rewrite sextet_std_not_pad in Hstrip. now inversion Hstrip.
      * rewrite stripPadding_group in Hstrip.
        destruct (stripPadding (String x tail)) as [r'|] eqn:Hr';
          [|discriminate Hstrip].
        inversion Hstrip. subst r. repeat f_equal.
        rewrite <- Hrest in Hr'. rewrite (IH rest r'); [exact Hrest| |exact Hr'].
        cbn in Hlen. lia.
Qed.

(** [base64util.DecodeString] undoes [base64.RawStdEncoding]: every
    ciphertext the encrypt callback stores decodes to the bytes the key
    manager returned. *)
Lemma base64util_decodes_RawStdEncoding (src : list byte) :
  base64util_DecodeString (RawStdEncoding_EncodeToString src) = Ok src.
Proof.
  unfold base64util_DecodeString, StdEncoding_DecodeString.
  unfold RawStdEncoding_EncodeToString at 1.
  rewrite dropNewLines_encodeRaw.
  destruct (stripPadding (encodeRaw encodeStd src)) as [r|] eqn:Hr.
  - apply (stripPadding_encodeRaw_bounded (List.length src)) in Hr; [|lia].
    subst r. now rewrite decodeUnpadded_round_trip.
  - apply RawStdEncoding_round_trip.
Qed.

(** ** Encrypt-on-write followed by decrypt-on-read *)

Lemma append_ne_self (column suffix : string) :
  suffix <> "" -> column +:+ suffix <> column.
Proof.
  intros Hne Heq. apply Hne.
  apply (String.app_inj column). now rewrite append_nil_r.
Qed.

Lemma append_ne_suffix (column s1 s2 : string) :
  s1 <> s2 -> column +:+ s1 <> column +:+ s2.
Proof. intros Hne Heq. apply Hne. now apply (String.app_inj column). Qed.

Lemma Field_Set_string (name old value : string) (scope : Scope) :
  scopeFields scope !! name = Some (VString old) ->
  Field_Set name value scope = (assign name (VString value) scope, None).
Proof. intros Hf. unfold Field_Set. now rewrite Hf. Qed.

Lemma getFieldString_missing (scope : Scope) (name : string) :
  scopeFields scope !! name = None ->
  getFieldString scope name = (None, "", false).
Proof.
  intros Hf. unfold getFieldString, FieldByName. now rewrite Hf.
Qed.

Lemma encodeRaw_nil (alphabet : string) (src : list byte) :
  encodeRaw alphabet src = "" -> src = [].
Proof. destruct src as [|a [|b [|c rest]]]; [reflexivity | discriminate..]. Qed.

(** What a successful encrypt-on-write leaves: the encoded ciphertext in
    the column and in the ciphertext cache, the plaintext in the plaintext
    cache. *)
Lemma callbackKMSEncrypt_success {K : Type} `{KeyManager K}
    (keyID table column : string) (keyManager keyManager' : K)
    (scope : Scope) (plaintext pc cc : string) (b : list byte) :
  TableName scope = table ->
  HasError scope = false ->
  plaintext <> "" ->
  scopeFields scope !! column = Some (VString plaintext) ->
  scopeFields scope !! (column +:+ "PlaintextCache") = Some (VString pc) ->
  scopeFields scope !! (column +:+ "CiphertextCache") = Some (VString cc) ->
  scopeFields scope !! (column +:+ "Ptr") = None ->
  Encrypt keyManager keyID (bytesOf plaintext) [] = (keyManager', Ok b) ->
  callbackKMSEncrypt keyID table column keyManager scope
  = (keyManager',
     assign (column +:+ "CiphertextCache")
       (VString (RawStdEncoding_EncodeToString b))
       (assign (column +:+ "PlaintextCache") (VString plaintext)
          (assign column (VString (RawStdEncoding_EncodeToString b)) scope))).
Proof.
  intros Htable Herr Hne Hreal Hpc Hcc Hptr Henc.
  assert (Hn1 : column <> column +:+ "PlaintextCache")
    by (intros Heq; symmetry in Heq; now apply append_ne_self in Heq).
  assert (Hn2 : column <> column +:+ "CiphertextCache")
    by (intros Heq; symmetry in Heq; now apply append_ne_self in Heq).
  assert (Hn3 : column +:+ "PlaintextCache" <> column +:+ "CiphertextCache")
    by now apply append_ne_suffix.
  unfold callbackKMSEncrypt.
  rewrite Htable, String.eqb_refl, Herr. cbn [negb].
  rewrite (getFieldString_string _ _ _ Hreal).
  destruct (String.eqb plaintext "") eqn:Heq;
    [apply String.eqb_eq in Heq; contradiction|].
  rewrite (getFieldString_string _ _ _ Hpc), (getFieldString_string _ _ _ Hcc),
    (getFieldString_missing _ _ Hptr).
  cbn [andb].
  destruct (String.eqb plaintext pc) eqn:Hhit.
  - (* the cached ciphertext is written first, then replaced *)
    unfold setOrReturn at 1. rewrite (Field_Set_string _ _ _ _ Hreal).
    rewrite Henc.
    unfold setOrReturn. cbn [andThen whenField finish].
    rewrite (Field_Set_string column cc) by apply lookup_insert_eq.
    cbn [andThen whenField finish].
    rewrite (Field_Set_string _ pc)
      by (cbn; rewrite !lookup_insert_ne by exact Hn1; exact Hpc).
    cbn [andThen whenField finish].
    rewrite (Field_Set_string _ cc)
      by (cbn; rewrite lookup_insert_ne by (intros Heq'; now apply Hn3);
          rewrite !lookup_insert_ne by exact Hn2; exact Hcc).
    cbn [finish]. unfold assign. cbn. f_equal. f_equal.
    now rewrite insert_insert_eq.
  - rewrite Henc.
    unfold setOrReturn. cbn [andThen whenField finish].
    rewrite (Field_Set_string _ _ _ _ Hreal).
    cbn [andThen whenField finish].
    rewrite (Field_Set_string _ pc)
      by (cbn; rewrite lookup_insert_ne by exact Hn1; exact Hpc).
    cbn [andThen whenField finish].
    rewrite (Field_Set_string _ cc)
      by (cbn; rewrite lookup_insert_ne by (intros Heq'; now apply Hn3);
          rewrite lookup_insert_ne by exact Hn2; exact Hcc).
    reflexivity.
Qed.

Lemma callbackKMSDecrypt_success {K : Type} `{KeyManager K}
    (keyID table column : string) (keyManager keyManager' : K)
    (scope : Scope) (ciphertext pc cc : string) (c p : list byte) :
  TableName scope = table ->
  HasError scope = false ->
  ciphertext <> "" ->
  scopeFields scope !! column = Some (VString ciphertext) ->
  scopeFields scope !! (column +:+ "PlaintextCache") = Some (VString pc) ->
  scopeFields scope !! (column +:+ "CiphertextCache") = Some (VString cc) ->
  scopeFields scope !! (column +:+ "Ptr") = None ->
  base64util_DecodeString ciphertext = Ok c ->
  Decrypt keyManager keyID c [] = (keyManager', Ok p) ->
  callbackKMSDecrypt keyID table column keyManager scope
  = (keyManager',
     assign (column +:+ "CiphertextCache") (VString ciphertext)
       (assign (column +:+ "PlaintextCache") (VString (stringOf p))
          (assign column (VString (stringOf p)) scope))).
Proof.
  intros Htable Herr Hne Hreal Hpc Hcc Hptr Hdecode Hdec.
  assert (Hn1 : column <> column +:+ "PlaintextCache")
    by (intros Heq; symmetry in Heq; now apply append_ne_self in Heq).
  assert (Hn2 : column <> column +:+ "CiphertextCache")
    by (intros Heq; symmetry in Heq; now apply append_ne_self in Heq).
  assert (Hn3 : column +:+ "PlaintextCache" <> column +:+ "CiphertextCache")
    by now apply append_ne_suffix.
  unfold callbackKMSDecrypt.
  rewrite Htable, String.eqb_refl, Herr. cbn [negb].
  rewrite (getFieldString_string _ _ _ Hreal).
  destruct (String.eqb ciphertext "") eqn:Heq;
    [apply String.eqb_eq in Heq; contradiction|].
  rewrite (getFieldString_string _ _ _ Hpc), (getFieldString_string _ _ _ Hcc),
    (getFieldString_missing _ _ Hptr).
  cbn [andb].
  destruct (String.eqb ciphertext cc) eqn:Hhit.
  - unfold setOrReturn at 1. rewrite (Field_Set_string _ _ _ _ Hreal).
    rewrite Hdecode, Hdec.
    unfold setOrReturn. cbn [andThen whenField finish].
    rewrite (Field_Set_string column pc) by apply lookup_insert_eq.
    cbn [andThen whenField finish].
    rewrite (Field_Set_string _ pc)
      by (cbn; rewrite !lookup_insert_ne by exact Hn1; exact Hpc).
    cbn [andThen whenField finish].
    rewrite (Field_Set_string _ cc)
      by (cbn; rewrite lookup_insert_ne by (intros Heq'; now apply Hn3);
          rewrite !lookup_insert_ne by exact Hn2; exact Hcc).
    cbn [finish]. unfold assign. cbn. f_equal. f_equal.
    now rewrite insert_insert_eq.
  - rewrite Hdecode, Hdec.
    unfold setOrReturn. cbn [andThen whenField finish].
    rewrite (Field_Set_string _ _ _ _ Hreal).
    cbn [andThen whenField finish].
    rewrite (Field_Set_string _ pc)
      by (cbn; rewrite lookup_insert_ne by exact Hn1; exact Hpc).
    cbn [andThen whenField finish].
    rewrite (Field_Set_string _ cc)
      by (cbn; rewrite lookup_insert_ne by (intros Heq'; now apply Hn3);
          rewrite lookup_insert_ne by exact Hn2; exact Hcc).
    reflexivity.
Qed.

(** X12: round trip of a save: when the key manager encrypts the plaintext of
    the column to a ciphertext that is not empty and decrypts that
    ciphertext back to the plaintext, the callbacks around the write store
    the encoded ciphertext in the row and leave the record with the
    plaintext in the column and in the plaintext cache, the encoded
    ciphertext in the ciphertext cache, every other column as it was, and
    no error. *)
Theorem saveEncrypted_restores_plaintext {K : Type} `{KeyManager K}
    (keyID table column : string) (keyManager km1 km2 : K)
    (scope : Scope) (plaintext pc cc : string) (b : list byte) :
  TableName scope = table ->
  HasError scope = false ->
  plaintext <> "" ->
  scopeFields scope !! column = Some (VString plaintext) ->
  scopeFields scope !! (column +:+ "PlaintextCache") = Some (VString pc) ->
  scopeFields scope !! (column +:+ "CiphertextCache") = Some (VString cc) ->
  scopeFields scope !! (column +:+ "Ptr") = None ->
  Encrypt keyManager keyID (bytesOf plaintext) [] = (km1, Ok b) ->
  b <> [] ->
  Decrypt km1 keyID b [] = (km2, Ok (bytesOf plaintext)) ->
  exists scope',
    saveEncrypted keyID table column keyManager scope
    = (km2, scope', Some (VString (RawStdEncoding_EncodeToString b)))
    /\ scopeFields scope'
       = <[column +:+ "CiphertextCache" :=
             VString (RawStdEncoding_EncodeToString b)]>
           (<[column +:+ "PlaintextCache" := VString plaintext]>
              (scopeFields scope))
    /\ scopeFields scope' !! column = Some (VString plaintext)
    /\ scopeErrors scope' = [].
Proof.
  intros Htable Herr Hne Hreal Hpc Hcc Hptr Henc Hb Hdec.
  assert (Hn1 : column <> column +:+ "PlaintextCache")
    by (intros Heq; symmetry in Heq; now apply append_ne_self in Heq).
  assert (Hn2 : column <> column +:+ "CiphertextCache")
    by (intros Heq; symmetry in Heq; now apply append_ne_self in Heq).
  assert (Hn3 : column +:+ "PlaintextCache" <> column +:+ "CiphertextCache")
    by now apply append_ne_suffix.
  assert (Hn4 : column +:+ "Ptr" <> column)
    by now apply append_ne_self.
  assert (Hn5 : column +:+ "Ptr" <> column +:+ "PlaintextCache")
    by now apply append_ne_suffix.
  assert (Hn6 : column +:+ "Ptr" <> column +:+ "CiphertextCache")
    by now apply append_ne_suffix.
  set (ct := RawStdEncoding_EncodeToString b).
  assert (Hct : ct <> "")
    by (intros Heq; apply Hb; now apply (encodeRaw_nil encodeStd)).
  unfold saveEncrypted.
  rewrite (callbackKMSEncrypt_success keyID table column keyManager km1 scope
             plaintext pc cc b Htable Herr Hne Hreal Hpc Hcc Hptr Henc).
  fold ct.
  rewrite (callbackKMSDecrypt_success keyID table column km1 km2 _
             ct plaintext ct b (bytesOf plaintext)).
  - eexists. split.
    + cbn [assign scopeFields].
      rewrite lookup_insert_ne by (intros Heq; now apply Hn2).
      rewrite lookup_insert_ne by (intros Heq; now apply Hn1).
      rewrite lookup_insert_eq. reflexivity.
    + unfold stringOf, bytesOf.
      rewrite String.string_of_list_byte_of_string.
      cbn [assign scopeFields scopeErrors]. repeat split.
      * apply map_eq. intros name. rewrite !lookup_insert.
        repeat case_decide; subst; try reflexivity; congruence.
      * rewrite lookup_insert_ne by (intros Heq; now apply Hn2).
        rewrite lookup_insert_ne by (intros Heq; now apply Hn1).
        apply lookup_insert_eq.
      * unfold HasError in Herr.
        destruct (scopeErrors scope); [reflexivity | discriminate].
  - exact Htable.
  - exact Herr.
  - exact Hct.
  - cbn [assign scopeFields].
    rewrite lookup_insert_ne by (intros Heq; now apply Hn2).
    rewrite lookup_insert_ne by (intros Heq; now apply Hn1).
    apply lookup_insert_eq.
  - cbn [assign scopeFields].
    rewrite lookup_insert_ne by (intros Heq; now apply Hn3).
    apply lookup_insert_eq.
  - cbn [assign scopeFields]. apply lookup_insert_eq.
  - cbn [assign scopeFields].
    rewrite !lookup_insert_ne by (intros Heq; symmetry in Heq; auto).
    exact Hptr.
  - apply base64util_decodes_RawStdEncoding.
  - exact Hdec.
Qed.

Lemma saveEncrypted_witness :
  exists scope',
    saveEncrypted "k1" "sms_configs" "TwilioAuthToken" (mkNonceKM 0)
      (smsConfig "secret123")
    = (mkNonceKM 1, scope', Some (VString "AHNlY3JldDEyMw"))
    /\ scopeFields scope' !! "TwilioAuthToken" = Some (VString "secret123").
Proof.
  destruct (saveEncrypted_restores_plaintext "k1" "sms_configs"
              "TwilioAuthToken" (mkNonceKM 0) (mkNonceKM 1) (mkNonceKM 1)
              (smsConfig "secret123") "secret123" "" ""
              (x00 :: bytesOf "secret123")
              eq_refl eq_refl ltac:(discriminate) eq_refl eq_refl eq_refl
              eq_refl eq_refl ltac:(discriminate) eq_refl)
    as (scope' & Hrun & _ & Hcolumn & _).
  exists scope'. split; [exact Hrun | exact Hcolumn].
Defined.

(** ** Decrypt-on-read: blank and undecodable ciphertexts *)

(** X13: when the column holds the empty string, decrypt-on-read is a no-op:
    the key manager is returned as given, with no call, and the columns
    and the errors of the operation are unchanged. *)
Theorem callbackKMSDecrypt_blank_is_left_alone {K : Type} `{KeyManager K}
    (keyID table column : string) (keyManager : Recorded K KMCall)
    (scope : Scope) :
  scopeFields scope !! column = Some (VString "") ->
  exists scope',
    callbackKMSDecrypt keyID table column keyManager scope
    = (keyManager, scope')
    /\ scopeFields scope' = scopeFields scope
    /\ scopeErrors scope' = scopeErrors scope.
Proof.
  intros Hf. unfold callbackKMSDecrypt.
  destruct (negb (String.eqb (TableName scope) table)); [now exists scope|].
  destruct (HasError scope); [now exists scope|].
  rewrite (getFieldString_string _ _ _ Hf). cbn [String.eqb].
  eexists. split; [reflexivity|]. split; reflexivity.
Qed.

Lemma callbackKMSDecrypt_blank_witness :
  scopeFields (smsConfig "") !! "TwilioAuthToken" = Some (VString "")
  /\ fst (callbackKMSDecrypt "k1" "sms_configs" "TwilioAuthToken"
            (recording BrokenKM) (smsConfig ""))
     = recording BrokenKM.
Proof.
  split; [reflexivity|].
  destruct (callbackKMSDecrypt_blank_is_left_alone "k1" "sms_configs"
              "TwilioAuthToken" (recording BrokenKM) (smsConfig "") eq_refl)
    as (scope' & Hrun & _).
  now rewrite Hrun.
Defined.

Lemma errors_of_clean_scope (scope : Scope) :
  HasError scope = false -> scopeErrors scope = [].
Proof.
  unfold HasError. destruct (scopeErrors scope); [reflexivity | discriminate].
Qed.

(** X14: when the ciphertext of the column is not base64, decrypt-on-read
    fails the read with the error naming the column and never calls the
    key manager. *)
Theorem callbackKMSDecrypt_rejects_undecodable_ciphertext
    {K : Type} `{KeyManager K}
    (keyID table column : string) (keyManager : Recorded K KMCall)
    (scope : Scope) (ciphertext err : string) :
  TableName scope = table ->
  HasError scope = false ->
  scopeFields scope !! column = Some (VString ciphertext) ->
  base64util_DecodeString ciphertext = Error err ->
  exists scope',
    callbackKMSDecrypt keyID table column keyManager scope
    = (keyManager, scope')
    /\ scopeErrors scope'
       = ["cannot decrypt " +:+ column +:+ ", invalid ciphertext"].
Proof.
  intros Htable Herr Hreal Hdecode. unfold callbackKMSDecrypt.
  rewrite Htable, String.eqb_refl, Herr. cbn [negb].
  rewrite (getFieldString_string _ _ _ Hreal).
  destruct (String.eqb_spec ciphertext "") as [->|Hne]; [discriminate Hdecode|].
  destruct (getFieldString scope (column +:+ "PlaintextCache"))
    as [[pcField pc] hasPc].
  destruct (getFieldString scope (column +:+ "CiphertextCache"))
    as [[ccField cc] hasCc].
  destruct (getFieldString scope (column +:+ "Ptr")) as [[ptrField ptr] hasPtr].
  destruct (hasPc && hasCc && String.eqb ciphertext cc).
  - unfold setOrReturn. rewrite (Field_Set_string _ _ _ _ Hreal), Hdecode.
    eexists. split; [reflexivity|].
    cbn. now rewrite (errors_of_clean_scope _ Herr).
  - rewrite Hdecode. eexists. split; [reflexivity|].
    cbn. now rewrite (errors_of_clean_scope _ Herr).
Qed.

Lemma undecodable_ciphertext_witness :
  exists scope',
    callbackKMSDecrypt "k1" "sms_configs" "TwilioAuthToken"
      (recording (mkNonceKM 0)) (smsConfig "not base64!")
    = (recording (mkNonceKM 0), scope')
    /\ scopeErrors scope'
       = ["cannot decrypt TwilioAuthToken, invalid ciphertext"].
Proof.
  exact (callbackKMSDecrypt_rejects_undecodable_ciphertext "k1" "sms_configs"
           "TwilioAuthToken" (recording (mkNonceKM 0))
           (smsConfig "not base64!") "not base64!" "illegal base64 data"
           eq_refl eq_refl eq_refl eq_refl).
Defined.

(** ** The HMAC callback *)

Lemma callbackHMAC_signs {S : Type} (hashFunc : HashFunc S)
    (table column : string) (signer signer' : S) (scope : Scope)
    (value sig : string) :
  TableName scope = table ->
  HasError scope = false ->
  value <> "" ->
  scopeFields scope !! column = Some (VString value) ->
  hashFunc signer value = (signer', Ok sig) ->
  callbackHMAC hashFunc table column signer scope
  = Returned (signer', assign column (VString sig) scope).
Proof.
  intros Htable Herr Hne Hf Hsig. unfold callbackHMAC.
  rewrite Htable, String.eqb_refl, Herr. cbn [negb].
  rewrite (getFieldString_string _ _ _ Hf).
  destruct (String.eqb_spec value "") as [->|_]; [contradiction|].
  rewrite Hsig. unfold setOrReturn.
  now rewrite (Field_Set_string _ _ _ _ Hf).
Qed.

(** X15: a value stored through the HMAC callback can be found again while
    its key is kept: with a signer that signs by [initialHMAC] under a key
    set with a first key, the callback replaces the non-empty value of the
    column by its signature, leaves the other columns and the errors as
    they were, calls the signer once, and the stored signature is among
    [allAllowedHMACs] of the value for every key set that still contains
    that first key. *)
Theorem callbackHMAC_stores_a_searchable_signature
    (table column value : string) (key : list byte)
    (rest later : list (list byte)) (scope : Scope) (count : nat) :
  TableName scope = table ->
  HasError scope = false ->
  value <> "" ->
  scopeFields scope !! column = Some (VString value) ->
  In key later ->
  exists sig sigs,
    callbackHMAC (countingSigner (key :: rest)) table column count scope
    = Returned (Datatypes.S count, assign column (VString sig) scope)
    /\ allAllowedHMACs later value = Ok sigs
    /\ In sig sigs.
Proof.
  intros Htable Herr Hne Hf Hin.
  exists (signWith key value), (map (fun k => signWith k value) later).
  split; [|split].
  - apply (callbackHMAC_signs _ _ _ _ _ _ value); try assumption.
    reflexivity.
  - apply allAllowedHMACs_map.
  - apply in_map_iff. now exists key.
Qed.

Lemma callbackHMAC_witness :
  exists sig sigs,
    callbackHMAC (countingSigner [bytesOf "new"]) "verification_codes"
      "code" 0%nat (scopeOf "verification_codes" [("code", VString "123456")])
    = Returned (1%nat,
                assign "code" (VString sig)
                  (scopeOf "verification_codes" [("code", VString "123456")]))
    /\ allAllowedHMACs [bytesOf "newer"; bytesOf "new"] "123456" = Ok sigs
    /\ In sig sigs.
Proof.
  exact (callbackHMAC_stores_a_searchable_signature "verification_codes"
           "code" "123456" (bytesOf "new") [] [bytesOf "newer"; bytesOf "new"]
           (scopeOf "verification_codes" [("code", VString "123456")]) 0%nat
           eq_refl eq_refl ltac:(discriminate) eq_refl
           (or_intror (or_introl eq_refl))).
Defined.

(** X16: when the hash function fails, as [initialHMAC] does without keys, the
    HMAC callback fails the write with the error naming the struct field of
    the column ([field.Name]: [Code] for the column registered as [code])
    and leaves the columns as they were: the value is not replaced. *)
Theorem callbackHMAC_failure_keeps_the_record
    (table column value : string) (scope : Scope) (count : nat) :
  TableName scope = table ->
  HasError scope = false ->
  value <> "" ->
  scopeFields scope !! column = Some (VString value) ->
  callbackHMAC (countingSigner []) table column count scope
  = Returned (Datatypes.S count,
              Err scope ("failed to generate HMAC for column "
                         +:+ Field_Name scope column
                         +:+ ": expected at least 1 hmac key")).
Proof.
  intros Htable Herr Hne Hf. unfold callbackHMAC.
  rewrite Htable, String.eqb_refl, Herr. cbn [negb].
  rewrite (getFieldString_string _ _ _ Hf).
  destruct (String.eqb_spec value "") as [->|_]; [contradiction|].
  reflexivity.
Qed.

Lemma callbackHMAC_failure_witness :
  callbackHMAC (countingSigner []) "verification_codes" "code" 0%nat
    (verificationCode "123456" "")
  = Returned (1%nat,
              Err (verificationCode "123456" "")
                "failed to generate HMAC for column Code: expected at least 1 hmac key").
Proof.
  exact (callbackHMAC_failure_keeps_the_record "verification_codes" "code"
           "123456" (verificationCode "123456" "")
           0%nat eq_refl eq_refl ltac:(discriminate) eq_refl).
Defined.

(** X17: [allAllowedHMACs] never fails: for every key set it gives as many
    signatures as keys, so for the empty key set, where [initialHMAC]
    fails, it gives the empty list; and [initialHMAC] fails for no other
    key set. *)
Theorem allAllowedHMACs_never_fails (keys : list (list byte)) (data : string) :
  (exists sigs,
      allAllowedHMACs keys data = Ok sigs
      /\ List.length sigs = List.length keys)
  /\ (initialHMAC keys data = Error "expected at least 1 hmac key"
      <-> keys = [])
  /\ allAllowedHMACs [] data = Ok [].
Proof.
  split; [|split].
  - exists (map (fun k => signWith k data) keys).
    split; [apply allAllowedHMACs_map | apply length_map].
  - destruct keys as [|key rest]; [now split|].
    rewrite initialHMAC_cons. split; discriminate.
  - reflexivity.
Qed.

(** ** Purging the cache changes no record *)

Lemma collectKeys_Returns (table : string) (scope : Scope)
    (columns : list string) :
  forall (keys : list string) (scope' : Scope),
    collectKeys table scope columns keys = Returns scope' ->
    scopeFields scope' = scopeFields scope
    /\ scopeTable scope' = scopeTable scope.
Proof.
  induction columns as [|column columns IH]; intros keys scope' Hrun.
  - discriminate Hrun.
  - rewrite collectKeys_cons in Hrun.
    destruct (scopeFields scope !! column) as [val|];
      [|inversion Hrun; now split].
    destruct val; try (now apply IH in Hrun); inversion Hrun; now split.
Qed.

(** X18: whatever the record, the rule and the cacher, [callbackPurgeCache]
    leaves the table and the columns of the record as they were and calls
    [Delete] at most once, with a key in the namespace of the rule. *)
Theorem callbackPurgeCache_keeps_the_record {C : Type} `{Cacher C}
    (namespace table : string) (columns : list string)
    (cacher : Recorded C Key) (scope : Scope) :
  let result := callbackPurgeCache namespace table columns cacher scope in
  scopeFields (snd result) = scopeFields scope
  /\ scopeTable (snd result) = scopeTable scope
  /\ exists deleted,
       calls (fst result) = calls cacher ++ deleted
       /\ (List.length deleted <= 1)%nat
       /\ Forall (fun key => Namespace key = namespace) deleted.
Proof.
  intros result. subst result. unfold callbackPurgeCache.
  destruct (negb (String.eqb (TableName scope) table)).
  { repeat split. exists []. rewrite app_nil_r. repeat split; auto. }
  destruct (HasError scope).
  { repeat split. exists []. rewrite app_nil_r. repeat split; auto. }
  destruct (collectKeys table scope columns []) as [keys|scope'] eqn:Hrun.
  - cbn [Delete Recorded_Cacher].
    destruct (Delete (inner cacher) _) as [c [err|]]; cbn [fst snd calls];
      (repeat split; eexists [_]; repeat split; [cbn; lia|];
       repeat constructor).
  - apply collectKeys_Returns in Hrun. destruct Hrun as [Hfields Htable].
    cbn [fst snd]. repeat split; [exact Hfields | exact Htable|].
    exists []. rewrite app_nil_r. repeat split; auto.
Qed.

(** ** The metric callback *)

Lemma parseUintLoop_range (s : string) :
  forall n v,
    0 <= n <= maxUint64 ->
    parseUintLoop s n = inr v ->
    0 <= v <= maxUint64.
Proof.
  induction s as [|c s IH]; intros n v Hn Hrun; cbn [parseUintLoop] in Hrun.
  - inversion Hrun. now subst.
  - destruct ((48 <=? Z.of_N (N_of_ascii c)) && (Z.of_N (N_of_ascii c) <=? 57))
      eqn:Hdigit; [|discriminate].
    apply andb_true_iff in Hdigit. destruct Hdigit as [Hlo Hhi].
    apply Z.leb_le in Hlo. apply Z.leb_le in Hhi.
    cbv zeta in Hrun.
    destruct (maxUint64 / 10 + 1 <=? n); [discriminate|].
    destruct (maxUint64 <? n * 10 + (Z.of_N (N_of_ascii c) - 48)) eqn:Hmax;
      [discriminate|].
    apply Z.ltb_ge in Hmax.
    apply (IH (n * 10 + (Z.of_N (N_of_ascii c) - 48))); [lia | exact Hrun].
Qed.

Lemma realmIDOf_range (realmIDRaw : Value) (realmID : Z) :
  realmIDOf realmIDRaw = Ok realmID -> 0 <= realmID < 2 ^ 64.
Proof.
  destruct realmIDRaw as [|t| | |t|t]; cbn [realmIDOf]; intros Hrun;
    try discriminate.
  - unfold ParseUint in Hrun.
    destruct (String.eqb t ""); [discriminate|].
    destruct (parseUintLoop t 0) as [[|]|v] eqn:Hloop; try discriminate.
    inversion Hrun. subst v.
    apply parseUintLoop_range in Hloop; unfold maxUint64 in *; lia.
  - inversion Hrun. apply Z.mod_pos_bound. lia.
  - inversion Hrun. apply Z.mod_pos_bound. lia.
Qed.

(** X19: on its table and without an earlier error, the metric callback either
    records exactly one measurement of value 1, tagged with the build
    information and, when the record has a realm, with a realm that fits 64
    unsigned bits, leaving the scope as it was; or it records nothing and
    adds an error to the operation.  It never drops the measurement
    silently. *)
Theorem callbackIncrementMetric_records_or_fails
    (m table : string) (recorded : list Measurement) (scope : Scope) :
  TableName scope = table ->
  HasError scope = false ->
  (exists realm,
      callbackIncrementMetric m table recorded scope
      = (recorded
           ++ [{| measureName := m; measureValue := 1;
                  measureContext :=
                    {| ctxRealmID := realm; ctxBuildInfo := true |} |}],
         scope)
      /\ match realm with
         | Some realmID => 0 <= realmID < 2 ^ 64
         | None => True
         end)
  \/ (exists err,
         callbackIncrementMetric m table recorded scope
         = (recorded, Err scope err)).
Proof.
  intros Htable Herr. unfold callbackIncrementMetric.
  rewrite Htable, String.eqb_refl, Herr. cbn [negb].
  unfold FieldByName, Interface.
  destruct (scopeFields scope !! "realm_id") as [val|] eqn:Hval;
    [|left; exists None; now split].
  rewrite Hval.
  destruct val as [|t| |addr t|t|t];
    [left; exists None; now split|..];
    match goal with
    | |- context [realmIDOf ?raw] =>
        destruct (realmIDOf raw) as [realmID|err] eqn:Hrealm
    end;
    solve [ left; exists (Some realmID); split;
            [reflexivity | now apply realmIDOf_range in Hrealm]
          | right; now exists err ].
Qed.

Lemma callbackIncrementMetric_witness :
  exists realm,
    callbackIncrementMetric "audit_entry_created" "audit_entries" []
      (scopeOf "audit_entries" [("realm_id", VInt (-1))])
    = ([{| measureName := "audit_entry_created"; measureValue := 1;
           measureContext :=
             {| ctxRealmID := realm; ctxBuildInfo := true |} |}],
       scopeOf "audit_entries" [("realm_id", VInt (-1))])
    /\ realm = Some 18446744073709551615.
Proof.
  destruct (callbackIncrementMetric_records_or_fails "audit_entry_created"
              "audit_entries" []
              (scopeOf "audit_entries" [("realm_id", VInt (-1))])
              eq_refl eq_refl) as [(realm & Hrun & _)|(err & Hrun)].
  - exists realm. split; [exact Hrun|].
    now inversion Hrun.
  - discriminate Hrun.
Defined.

(** ** Retrying while the database stays down *)

Lemma Do_always_retryable {S : Type} (f : RetryFunc S) (n : nat) :
  (forall s, exists e, snd (f s) = Some (RetryableError e)) ->
  forall (attempt : N) (fuel : nat) (p : Probe S),
    (N.to_nat attempt + n = 30)%nat ->
    (n < fuel)%nat ->
    exists (p' : Probe S) (e : string) (new : list (option FuncError)),
      Do fuel (probeContext background)
         (mkMaxRetries 30 attempt (mkConstant Second)) (probeFunc f) p
      = Some (p', Some e)
      /\ attempts p' = attempts p ++ new
      /\ List.length new = (n + 1)%nat
      /\ List.last new None = Some (RetryableError e)
      /\ waits p' = waits p ++ repeat Second n.
Proof.
  intros Hfail.
  induction n as [|n IH]; intros attempt fuel p Hleft Hfuel;
    (destruct fuel as [|fuel]; [lia|]);
    cbn [Do]; unfold probeFunc at 1;
    destruct (Hfail (probed p)) as [e He];
    destruct (f (probed p)) as [s res]; cbn [snd] in He; subst res;
    rewrite Next_maxRetries.
  - replace (30 <=? attempt)%N with true by (symmetry; apply N.leb_le; lia).
    eexists _, e, [Some (RetryableError e)]. cbn [attempts waits repeat].
    rewrite app_nil_r. repeat split.
  - replace (30 <=? attempt)%N with false by (symmetry; apply N.leb_gt; lia).
    unfold probeContext at 1, background at 1. cbn [probed attempts waits].
    destruct (IH (attempt + 1)%N fuel
                (mkProbe s (attempts p ++ [Some (RetryableError e)])
                         (waits p ++ [Second])))
      as (p' & e' & new & Hrun & Hatt & Hlen & Hlast & Hwaits); [lia | lia |].
    cbn [attempts waits] in Hatt, Hwaits.
    exists p', e', (Some (RetryableError e) :: new).
    rewrite Hrun, Hatt, Hwaits, <- !app_assoc. cbn [app repeat].
    rewrite last_cons_nonempty by lia.
    repeat split; [cbn [List.length]; lia | exact Hlast].
Qed.

(** X20: as [OpenWithCacher] uses it, every failure of the retried function is
    retryable.  For such a function that never succeeds, under a context
    that does not end, [withRetries] calls it exactly 31 times, waits one
    second 30 times, and returns the error of the last call. *)
Theorem withRetries_gives_up_after_31_attempts {S : Type}
    (f : RetryFunc S) (s : S) :
  (forall s, exists e, snd (f s) = Some (RetryableError e)) ->
  exists (p : Probe S) (e : string),
    withRetries 31 (probeContext background) (probeFunc f) (probe s)
    = Some (p, Some e)
    /\ List.length (attempts p) = 31%nat
    /\ List.last (attempts p) None = Some (RetryableError e)
    /\ waits p = repeat Second 30.
Proof.
  intros Hfail. unfold withRetries.
  cbn [NewConstant Z.mul Second Z.leb Z.compare]. unfold WithMaxRetries.
  destruct (Do_always_retryable f 30 Hfail 0%N 31%nat (probe s))
    as (p & e & new & Hrun & Hatt & Hlen & Hlast & Hwaits);
    [reflexivity | lia |].
  cbn [probe attempts waits app] in Hatt, Hwaits.
  exists p, e. rewrite Hatt, Hwaits. repeat split; assumption.
Qed.

Lemma withRetries_gives_up_witness :
  exists (p : Probe N) (e : string),
    withRetries 31 (probeContext background) (probeFunc alwaysFailing)
      (probe 0%N)
    = Some (p, Some e)
    /\ List.length (attempts p) = 31%nat.
Proof.
  destruct (withRetries_gives_up_after_31_attempts alwaysFailing 0%N)
    as (p & e & Hrun & Hlen & _).
  - intros s. eexists. reflexivity.
  - exists p, e. split; [exact Hrun | exact Hlen].
Defined.
